(** * lrud: the tree-query and index-resolution utilities of [src/utils.ts]

    A shallow embedding of the functions of [utils.ts] and the properties
    their specification states about them.

    Conventions of the embedding.
    - A JavaScript string is a [string]; its length and positions count
      characters of that string.
    - An index is an integer that a binary64 number holds, written as a
      [Z]; a difference of indices is rounded as binary64 rounds it
      ([JS.float64]), which changes nothing up to 2^53.  An absent index
      is [None] (the value [undefined]).  [Closest] is also given on all
      binary64 numbers ([Binary64.Closest]).
    - An object used as a mapping (a [children] mapping, a tree) is the
      list of its entries in the order [Object.keys] enumerates them; a
      loop over [Object.keys(o)] that reads [o[k]] is a loop over these
      entries (lemma [get_each_key]).
    - A function that can throw returns a [result]. *)

From Stdlib Require Import ZArith List Bool Ascii String Lia Floats.
Import ListNotations.

Local Open Scope string_scope.
Local Open Scope Z_scope.

(** ** JavaScript preliminaries *)

Module JS.

(** The errors the embedded code can throw. *)
Inductive error : Type :=
| TypeError.

Inductive result (A : Type) : Type :=
| Ok (a : A)
| Throw (e : error).
Arguments Ok {A} a.
Arguments Throw {A} e.

Definition bind {A B : Type} (r : result A) (k : A -> result B) : result B :=
  match r with
  | Ok a => k a
  | Throw e => Throw e
  end.

(** A value of type [any], as far as its truthiness goes.  [VObject]
    stands for any object or function, identified by a handle. *)
Inductive value : Type :=
| VUndefined
| VNull
| VBool (b : bool)
| VNumber (z : Z)
| VString (s : string)
| VObject (handle : nat).

(** [ToBoolean], written [!!v] in the source. *)
Definition truthy (v : value) : bool :=
  match v with
  | VUndefined | VNull => false
  | VBool b => b
  | VNumber z => negb (z =? 0)
  | VString s => negb (String.eqb s "")
  | VObject _ => true
  end.

(** Truthiness of an optional string: [undefined] and [""] are falsy. *)
Definition truthy_string (o : option string) : bool :=
  match o with
  | Some s => negb (String.eqb s "")
  | None => false
  end.

(** [a || b] on optional strings. *)
Definition or_string (a b : option string) : option string :=
  if truthy_string a then a else b.

(** [ToString] of an optional string, as [+] and property access apply
    it: [undefined] becomes the string ["undefined"]. *)
Definition to_string (o : option string) : string :=
  match o with
  | Some s => s
  | None => "undefined"
  end.

(** Numbers that may be [NaN]: [None] is [NaN]. *)
Definition number : Type := option Z.

(** The integer a binary64 number holds for the exact integer [z], the
    result of an operation on integers: [z] rounded to 53 significant
    bits, to the nearest and to the even one on a tie.  What is beyond
    the largest binary64 number becomes [Infinity], for which [2^1024]
    stands. *)
Definition float64 (z : Z) : Z :=
  let a := Z.abs z in
  if a <? 2 ^ 53 then z
  else
    let e := Z.log2 a - 52 in
    let q := a / 2 ^ e in
    let r := a mod 2 ^ e in
    let half := 2 ^ (e - 1) in
    let q' :=
      if r <? half then q
      else if half <? r then q + 1
      else if Z.even q then q else q + 1 in
    Z.sgn z * Z.min (q' * 2 ^ e) (2 ^ 1024).

(** [Math.abs(x - goal)]; [undefined - goal] is [NaN]. *)
Definition abs_sub (x : option Z) (goal : Z) : number :=
  match x with
  | Some v => Some (Z.abs (float64 (v - goal)))
  | None => None
  end.

(** [a < b]; every comparison with [NaN] or [undefined] is false. *)
Definition lt (a b : number) : bool :=
  match a, b with
  | Some x, Some y => x <? y
  | _, _ => false
  end.

(** [a <= b]. *)
Definition le (a b : number) : bool :=
  match a, b with
  | Some x, Some y => x <=? y
  | _, _ => false
  end.

(** [a >= b]. *)
Definition ge (a b : number) : bool :=
  match a, b with
  | Some x, Some y => x >=? y
  | _, _ => false
  end.

(** [a === b] on indices: [undefined === undefined] holds. *)
Definition strict_eq (a b : option Z) : bool :=
  match a, b with
  | Some x, Some y => x =? y
  | None, None => true
  | _, _ => false
  end.

(** [Array.prototype.reduce] without an initial value: the first
    element seeds the accumulator, and an empty array throws. *)
Definition reduce {A : Type} (f : A -> A -> A) (xs : list A) : result A :=
  match xs with
  | [] => Throw TypeError
  | x :: rest => Ok (fold_left f rest x)
  end.

(** [Array.prototype.find]. *)
Definition find {A : Type} (p : A -> bool) (xs : list A) : option A :=
  List.find p xs.

(** *** Objects as ordered mappings *)

Definition object (A : Type) : Type := list (string * A).

(** [Object.keys(o)]. *)
Definition keys {A : Type} (o : object A) : list string := map fst o.

(** [o[k]] for an own property [k]. *)
Fixpoint get {A : Type} (o : object A) (k : string) : option A :=
  match o with
  | [] => None
  | (k', v) :: rest => if String.eqb k' k then Some v else get rest k
  end.

(** [Object.keys(o).forEach(k => body(k, o[k]))], threading the state
    the callback updates. *)
Definition forEach {A S : Type} (o : object A) (body : string -> A -> S -> S)
  (s : S) : S :=
  fold_left (fun s kv => body (fst kv) (snd kv) s) o s.

(** *** String searching *)

(** Does [needle] occur in [hay] at position 0? *)
Fixpoint starts_with (needle hay : string) : bool :=
  match needle, hay with
  | EmptyString, _ => true
  | String a n', String b h' => Ascii.eqb a b && starts_with n' h'
  | String _ _, EmptyString => false
  end.

(** The least position [k >= pos] (counted from [base]) at which
    [needle] occurs in [hay], where [hay] is the part of the string
    from position [base] on. *)
Fixpoint index_from (needle hay : string) (pos base : Z) : Z :=
  if (pos <=? base) && starts_with needle hay then base
  else match hay with
       | EmptyString => -1
       | String _ h' => index_from needle h' pos (base + 1)
       end.

(** [hay.indexOf(needle, pos)]: a negative [pos] counts as 0. *)
Definition indexOf (hay needle : string) (pos : Z) : Z :=
  index_from needle hay (Z.max 0 pos) 0.

(** The greatest position [k <= pos] (counted from [base]) at which
    [needle] occurs, or [best] when there is none. *)
Fixpoint last_index_upto (needle hay : string) (pos base best : Z) : Z :=
  if pos <? base then best
  else
    let best' := if starts_with needle hay then base else best in
    match hay with
    | EmptyString => best'
    | String _ h' => last_index_upto needle h' pos (base + 1) best'
    end.

(** [hay.lastIndexOf(needle, pos)]: a negative [pos] counts as 0. *)
Definition lastIndexOf (hay needle : string) (pos : Z) : Z :=
  last_index_upto needle hay (Z.max 0 pos) 0 (-1).

Definition length (s : string) : Z := Z.of_nat (String.length s).

(** A result that is a value, [null] or [undefined]. *)
Inductive nullable (A : Type) : Type :=
| Value (a : A)
| Null
| Undefined.
Arguments Value {A} a.
Arguments Null {A}.
Arguments Undefined {A}.

(** [Array.prototype.some]. *)
Definition some {A : Type} (p : A -> bool) (xs : list A) : bool :=
  existsb p xs.

End JS.

Notation "x <- r ;; k" := (JS.bind r (fun x => k))
  (at level 61, r at next level, right associativity).

(** ** The data model: [interfaces.ts] *)

#[local] Set Warnings "-register-all".

(** A node of the focus tree.  Every field is optional; [None] is an
    absent field.  The callbacks are opaque handles. *)
Inductive Node : Type := mkNode {
  id : option string;
  parent : option string;
  index : option Z;
  indexRange : option (list Z);
  selectAction : JS.value;
  isFocusable : option bool;
  isWrapping : option bool;
  orientation : option string;
  isIndexAlign : option bool;
  onLeave : option nat;
  onEnter : option nat;
  activeChild : option string;
  children : option (JS.object Node)
}.

(** The node with no field set, [{}]. *)
Definition emptyNode : Node :=
  mkNode None None None None JS.VUndefined None None None None None None None None.

(** A tree is the root mapping from ids to nodes. *)
Definition Tree : Type := JS.object Node.

(** ** The functions of [utils.ts] *)

(** The callback [Closest] reduces with:
    [Math.abs(curr - goal) < Math.abs(prev - goal) ? curr : prev]. *)
Definition nearer (goal : Z) (prev curr : option Z) : option Z :=
  if JS.lt (JS.abs_sub curr goal) (JS.abs_sub prev goal) then curr else prev.

(** [Closest(values, goal)]. *)
Definition Closest (values : list (option Z)) (goal : Z) : JS.result (option Z) :=
  JS.reduce (nearer goal) values.

(** [Closest] on every binary64 number, with the arithmetic and the
    comparison of binary64. *)
Module Binary64.

(** The callback [Closest] reduces with:
    [Math.abs(curr - goal) < Math.abs(prev - goal) ? curr : prev]. *)
Definition nearer (goal prev curr : float) : float :=
  if (abs (curr - goal) <? abs (prev - goal))%float then curr else prev.

(** [Closest(values, goal)]. *)
Definition Closest (values : list float) (goal : float) : JS.result float :=
  JS.reduce (nearer goal) values.

End Binary64.

(** [isNodeFocusable(node)]. *)
Definition isNodeFocusable (node : Node) : bool :=
  match isFocusable node with
  | Some b => b
  | None => JS.truthy (selectAction node)
  end.

(** [isNodeInPath(path, node)]. *)
Definition isNodeInPath (path : string) (node : Node) : bool :=
  if JS.lastIndexOf path (JS.to_string (id node) ++ ".") 0 =? 0 then true
  else
    let suffix := "." ++ JS.to_string (id node) in
    if negb (JS.indexOf path suffix (JS.length path - JS.length suffix) =? -1)
    then true
    else
      if negb (JS.indexOf path ("." ++ JS.to_string (id node) ++ ".") 0 =? -1)
      then true
      else false.

(** [_findChildWithIndex(node, index)].  [Object.keys(node.children)]
    is searched with each key's own value at hand; the child returned
    is read back through the key found. *)
Definition _findChildWithIndex (node : Node) (index' : option Z) : option Node :=
  match children node with
  | None => None
  | Some cs =>
      let childIdWithMatchingIndex :=
        option_map fst
          (JS.find (fun '(childId, childNode) => JS.strict_eq (index childNode) index') cs) in
      if JS.truthy_string childIdWithMatchingIndex
      then JS.get cs (JS.to_string childIdWithMatchingIndex)
      else None
  end.

(** The test of the filter in [_findChildWithClosestIndex]:
    [isNodeFocusable(child) || child.children]. *)
Definition isCandidate (child : Node) : bool :=
  isNodeFocusable child ||
  match children child with Some _ => true | None => false end.

(** The array [indexes] of [_findChildWithClosestIndex]. *)
Definition candidateIndexes (cs : JS.object Node) : list (option Z) :=
  map (fun '(childId, child) => index child)
      (filter (fun '(childId, child) => isCandidate child) cs).

(** [i >= r[0] && i <= r[1]]; a missing bound is [undefined]. *)
Definition withinRange (i : option Z) (r : list Z) : bool :=
  JS.ge i (nth_error r 0) && JS.le i (nth_error r 1).

(** The condition of the index-align shortcut:
    [indexRange && activeChild && activeChild.index >= indexRange[0] &&
     activeChild.index <= indexRange[1] && isNodeFocusable(activeChild)]. *)
Definition activeChildInRange (indexRange' : option (list Z))
  (activeChild' : option Node) : bool :=
  match indexRange', activeChild' with
  | Some r, Some ac => withinRange (index ac) r && isNodeFocusable ac
  | _, _ => false
  end.

(** [_findChildWithClosestIndex(node, index, indexRange = null)]. *)
Definition _findChildWithClosestIndex (node : Node) (index' : Z)
  (indexRange' : option (list Z)) : JS.result (option Node) :=
  match children node with
  | None => JS.Ok None
  | Some cs =>
      let activeChild' := JS.get cs (JS.to_string (activeChild node)) in
      if activeChildInRange indexRange' activeChild' then JS.Ok activeChild'
      else
        let indexes := candidateIndexes cs in
        if Z.of_nat (List.length indexes) <=? 0 then JS.Ok None
        else
          closest <- Closest indexes index' ;;
          JS.Ok (_findChildWithIndex node closest)
  end.

(** The state [isNodeInTree] closes over: the flag [nodeInTree], and a
    log of the keys its callback has been run on, in order (the log is
    not in the source; it records the traversal). *)
Record walk : Type := mkWalk {
  nodeInTree : bool;
  visited : list string
}.

(** The callback of [_isNodeInTree], run on the key [treeProperty] whose
    value is [node]. *)
Fixpoint _isNodeInTree_visit (nodeId treeProperty : string) (node : Node)
  (st : walk) : walk :=
  let st1 :=
    mkWalk (if String.eqb nodeId treeProperty then true else nodeInTree st)
           (visited st ++ [treeProperty]) in
  match children node with
  | Some cs => JS.forEach cs (fun k child => _isNodeInTree_visit nodeId k child) st1
  | None => st1
  end.

(** The inner function [_isNodeInTree(tree)]. *)
Definition _isNodeInTree (nodeId : string) (tree : Tree) (st : walk) : walk :=
  JS.forEach tree (_isNodeInTree_visit nodeId) st.

(** [isNodeInTree(nodeId, tree)]. *)
Definition isNodeInTree (nodeId : string) (tree : Tree) : bool :=
  nodeInTree (_isNodeInTree nodeId tree (mkWalk false [])).

(** The keys [isNodeInTree(nodeId, tree)] runs its callback on. *)
Definition isNodeInTree_visits (nodeId : string) (tree : Tree) : list string :=
  visited (_isNodeInTree nodeId tree (mkWalk false [])).

(** The record [getNodesFromTree] pushes for the key [treeProperty]:
    [{...node, id: treeProperty, children: undefined, parent: _parent}]. *)
Definition flatRecord (treeProperty : string) (node : Node)
  (_parent : option string) : Node :=
  mkNode (Some treeProperty) _parent (index node) (indexRange node)
         (selectAction node) (isFocusable node) (isWrapping node)
         (orientation node) (isIndexAlign node) (onLeave node) (onEnter node)
         (activeChild node) None.

(** The callback of [_getNodesFromTree], run on the key [treeProperty]
    whose value is [node]; [nodes] is the array being filled. *)
Fixpoint _getNodesFromTree_visit (parent' : option string) (treeProperty : string)
  (node : Node) (nodes : list Node) : list Node :=
  let _parent := JS.or_string (parent node) parent' in
  let nodes1 := (nodes ++ [flatRecord treeProperty node _parent])%list in
  match children node with
  | Some cs =>
      JS.forEach cs (fun k child => _getNodesFromTree_visit (Some treeProperty) k child)
                 nodes1
  | None => nodes1
  end.

(** The inner function [_getNodesFromTree(tree, parent)]. *)
Definition _getNodesFromTree (tree : Tree) (parent' : option string)
  (nodes : list Node) : list Node :=
  JS.forEach tree (_getNodesFromTree_visit parent') nodes.

(** [getNodesFromTree(tree)]. *)
Definition getNodesFromTree (tree : Tree) : list Node :=
  _getNodesFromTree tree None [].

(** ** The other functions of [utils.ts] *)

Section Directions.

(** [String.prototype.toUpperCase], and the table [KeyCodes.codes] of
    [key-codes.ts], which maps a key code to a direction. *)
Variable toUpperCase : string -> string.
Variable codes : Z -> option string.

(** [getDirectionForKeyCode(keyCode)]. *)
Definition getDirectionForKeyCode (keyCode : Z) : option string :=
  let direction := codes keyCode in
  if JS.truthy_string direction
  then Some (toUpperCase (JS.to_string direction))
  else None.

(** [isDirectionAndOrientationMatching(orientation, direction)]; an
    argument that is [undefined] or [null] is [None]. *)
Definition isDirectionAndOrientationMatching (orientation direction : option string)
  : bool :=
  if negb (JS.truthy_string orientation) || negb (JS.truthy_string direction)
  then false
  else
    let orientation' := toUpperCase (JS.to_string orientation) in
    let direction' := toUpperCase (JS.to_string direction) in
    String.eqb direction' "*" ||
    (String.eqb orientation' "VERTICAL" &&
     (String.eqb direction' "UP" || String.eqb direction' "DOWN")) ||
    (String.eqb orientation' "HORIZONTAL" &&
     (String.eqb direction' "LEFT" || String.eqb direction' "RIGHT")).

End Directions.

(** [isNodeInPaths(paths, node)]. *)
Definition isNodeInPaths (paths : list string) (node : Node) : bool :=
  JS.some (fun path => isNodeInPath path node) paths.

(** The test of the search in [_findChildWithMatchingIndexRange]:
    [child.indexRange && (child.indexRange[0] <= index &&
     child.indexRange[1] >= index)]. *)
Definition spansIndex (child : Node) (index' : Z) : bool :=
  match indexRange child with
  | Some r => JS.le (nth_error r 0) (Some index') && JS.ge (nth_error r 1) (Some index')
  | None => false
  end.

(** [_findChildWithMatchingIndexRange(node, index)]. *)
Definition _findChildWithMatchingIndexRange (node : Node) (index' : Z)
  : JS.nullable Node :=
  match children node with
  | None => JS.Null
  | Some cs =>
      let childWithIndexRangeSpanningIndex :=
        option_map fst
          (JS.find (fun '(childId, child) => spansIndex child index') cs) in
      if JS.truthy_string childWithIndexRangeSpanningIndex
      then
        match JS.get cs (JS.to_string childWithIndexRangeSpanningIndex) with
        | Some child => JS.Value child
        | None => JS.Undefined
        end
      else JS.Undefined
  end.

(** ** Definitions the properties are stated with *)

(** The distance [Closest] compares: [Math.abs(v - goal)] as binary64
    computes it. *)
Definition distance (goal v : Z) : Z := Z.abs (JS.float64 (v - goal)).

(** The magnitude of a binary64 number that is not [NaN], as a key
    ordered by class (zero, finite, infinite), then exponent, then
    mantissa. *)
Definition magnitude (f : spec_float) : option (Z * Z * Z) :=
  match f with
  | S754_nan => None
  | S754_zero _ => Some (0, 0, 0)
  | S754_finite _ m e => Some (1, e, Zpos m)
  | S754_infinity _ => Some (2, 0, 0)
  end.

Definition magnitudeOf (x : float) : option (Z * Z * Z) := magnitude (Prim2SF x).

Definition key_lt (a b : Z * Z * Z) : Prop :=
  let '(a1, a2, a3) := a in
  let '(b1, b2, b3) := b in
  a1 < b1 \/ (a1 = b1 /\ (a2 < b2 \/ (a2 = b2 /\ a3 < b3))).

Definition key_le (a b : Z * Z * Z) : Prop :=
  let '(a1, a2, a3) := a in
  let '(b1, b2, b3) := b in
  a1 < b1 \/ (a1 = b1 /\ (a2 < b2 \/ (a2 = b2 /\ a3 <= b3))).

(** C2 as it is stated: the result is an element of the values, and no
    value is nearer to the goal. *)
Definition nearest_of_all (values : list float) (goal : float) : Prop :=
  exists r,
    Binary64.Closest values goal = JS.Ok r /\
    In r values /\
    forall w, In w values -> (abs (r - goal) <=? abs (w - goal))%float = true.

(** The distance without rounding. *)
Definition exactDistance (goal v : Z) : Z := Z.abs (v - goal).

(** The depth-first pre-order of a tree, following the specification:
    each node with its key and the key of its structural parent, a node
    first and then the nodes below it. *)
Fixpoint nodePreorder (structuralParent : option string) (key : string)
  (node : Node) : list (option string * string * Node) :=
  (structuralParent, key, node) ::
  match children node with
  | Some cs => flat_map (fun kv => nodePreorder (Some key) (fst kv) (snd kv)) cs
  | None => []
  end.

Definition preorder (structuralParent : option string) (tree : Tree)
  : list (option string * string * Node) :=
  flat_map (fun kv => nodePreorder structuralParent (fst kv) (snd kv)) tree.

(** The keys of a list of walked nodes. *)
Definition keysOf (es : list (option string * string * Node)) : list string :=
  map (fun e => snd (fst e)) es.

(** The keys of the recursive tree, in pre-order. *)
Definition treeKeys (tree : Tree) : list string :=
  keysOf (preorder None tree).

(** What a walk of [isNodeInTree] adds to the state: the keys it reads,
    and the flag if one of them is [nodeId]. *)
Definition walked (nodeId : string) (st : walk) (ks : list string) : walk :=
  mkWalk (nodeInTree st || existsb (String.eqb nodeId) ks)
         (visited st ++ ks).

(** The record of a node of the walk: [parent] is the node's own when it
    is truthy, and the structural parent otherwise. *)
Definition recordOf (e : option string * string * Node) : Node :=
  let '(structuralParent, key, node) := e in
  flatRecord key node (JS.or_string (parent node) structuralParent).

(** The record as the specification states it: [parent] is the node's
    own whenever the field is present. *)
Definition recordAsStated (e : option string * string * Node) : Node :=
  let '(structuralParent, key, node) := e in
  flatRecord key node
    match parent node with
    | Some p => Some p
    | None => structuralParent
    end.

Definition getNodesFromTree_asStated (tree : Tree) : list Node :=
  map recordAsStated (preorder None tree).

(** The walk the specification describes: the callback does not descend
    into the children of a key once the flag is set, but goes on with
    the keys that follow. *)
Fixpoint _isNodeInTree_visit_stopping (nodeId treeProperty : string) (node : Node)
  (st : walk) : walk :=
  let st1 :=
    mkWalk (if String.eqb nodeId treeProperty then true else nodeInTree st)
           (visited st ++ [treeProperty]) in
  if nodeInTree st1 then st1
  else
    match children node with
    | Some cs =>
        JS.forEach cs (fun k child => _isNodeInTree_visit_stopping nodeId k child) st1
    | None => st1
    end.

Definition isNodeInTree_visits_stopping (nodeId : string) (tree : Tree) : list string :=
  visited (JS.forEach tree (_isNodeInTree_visit_stopping nodeId) (mkWalk false [])).

(** What is expected of [_findChildWithClosestIndex]: [null] without
    children, [null] without candidates, and a child in every other case
    that does not take the shortcut. *)
Definition null_only_without_candidates (node : Node) (index' : Z)
  (indexRange' : option (list Z)) : Prop :=
  match children node with
  | None => _findChildWithClosestIndex node index' indexRange' = JS.Ok None
  | Some cs =>
      (candidateIndexes cs = [] ->
       _findChildWithClosestIndex node index' indexRange' = JS.Ok None) /\
      (candidateIndexes cs <> [] ->
       activeChildInRange indexRange' (JS.get cs (JS.to_string (activeChild node))) = false ->
       exists c, _findChildWithClosestIndex node index' indexRange' = JS.Ok (Some c))
  end.

(** Is the index a number? *)
Definition isNumber (v : option Z) : bool :=
  match v with Some _ => true | None => false end.

(** A string without a dot. *)
Fixpoint dotFree (s : string) : bool :=
  match s with
  | EmptyString => true
  | String c s' => negb (Ascii.eqb c ".") && dotFree s'
  end.

(** The segments of a path: the path split at its dots. *)
Fixpoint segments (path : string) : list string :=
  match path with
  | EmptyString => [""]
  | String c rest =>
      if Ascii.eqb c "." then "" :: segments rest
      else
        match segments rest with
        | [] => [String c ""]
        | seg :: segs => String c seg :: segs
        end
  end.

(** [toUpperCase] on the letters of ASCII; the other characters of the
    model are left as they are. *)
Definition upperAscii (c : ascii) : ascii :=
  let n := nat_of_ascii c in
  if ((97 <=? n) && (n <=? 122))%nat then ascii_of_nat (n - 32) else c.

Fixpoint toUpperCaseAscii (s : string) : string :=
  match s with
  | EmptyString => EmptyString
  | String c s' => String (upperAscii c) (toUpperCaseAscii s')
  end.

(** A key-code table: 38 and 40 are ["up"] and ["down"], 37 and 39 are
    ["left"] and ["right"]. *)
Definition arrowCodes (keyCode : Z) : option string :=
  if keyCode =? 38 then Some "up"
  else if keyCode =? 40 then Some "down"
  else if keyCode =? 37 then Some "left"
  else if keyCode =? 39 then Some "right"
  else None.

(** ** Example nodes and trees *)

(** [{index: i}]. *)
Definition indexed (i : Z) : Node :=
  mkNode None None (Some i) None JS.VUndefined None None None None None None None None.

(** [{index: i, selectAction: fn}]. *)
Definition selectable (i : Z) (fn : nat) : Node :=
  mkNode None None (Some i) None (JS.VObject fn) None None None None None None None None.

(** [{children: cs}]. *)
Definition container (cs : JS.object Node) : Node :=
  mkNode None None None None JS.VUndefined None None None None None None None (Some cs).

(** [{activeChild: a, children: cs}]. *)
Definition containerWithActive (a : string) (cs : JS.object Node) : Node :=
  mkNode None None None None JS.VUndefined None None None None None None (Some a) (Some cs).

(** [{index: i, indexRange: [lo, hi]}]. *)
Definition ranged (i lo hi : Z) : Node :=
  mkNode None None (Some i) (Some [lo; hi]) JS.VUndefined None None None None
         None None None None.

(** [{children: {row1: {index: 0, indexRange: [0, 2]},
                 row2: {index: 1, indexRange: [3, 5]}}}]. *)
Definition twoRows : Node :=
  container [("row1", ranged 0 0 2); ("row2", ranged 1 3 5)].

(** A node whose active child [y] (index 5) is not the child nearest
    to the target index 0, which is [x]. *)
Definition twoSelectable : Node :=
  containerWithActive "y" [("x", selectable 0 1); ("y", selectable 5 2)].

(** A node whose only child is a candidate and has the empty string as
    its id: [{children: {"": {index: 0, selectAction: fn}}}]. *)
Definition emptyIdChild : Node := container [("", selectable 0 1)].

(** The same child, named as the active child:
    [{activeChild: "", children: {"": {index: 0, selectAction: fn}}}]. *)
Definition emptyIdActive : Node :=
  containerWithActive "" [("", selectable 0 1)].

(** Two children with the index 1: [x], which is neither focusable nor
    a container, comes before [y], which is focusable. *)
Definition sharedIndex : Node :=
  container [("x", indexed 1); ("y", selectable 1 7)].

(** [{a: {children: {b: {}}}}]. *)
Definition treeAB : Tree := [("a", container [("b", emptyNode)])].

(** [{a: {children: {b: {parent: ""}}}}]: the node [b] has the empty
    string as its own [parent]. *)
Definition treeEmptyParent : Tree :=
  [("a", container
           [("b", mkNode None (Some "") None None JS.VUndefined None None None
                         None None None None None)])].

(** [{a: {index: 0, children: {b: {index: 0}}}}]. *)
Definition treeIndexed : Tree :=
  [("a", mkNode None None (Some 0) None JS.VUndefined None None None None None
                None None (Some [("b", indexed 0)]))].

(** ** The nearest-value resolver *)

Section ClosestFacts.

Variable goal : Z.

Lemma nearer_numbers (p c : Z) :
  nearer goal (Some p) (Some c) =
  Some (if distance goal c <? distance goal p then c else p).
Proof.
  unfold nearer, distance, JS.abs_sub, JS.lt. now destruct (_ <? _).
Qed.

(** The reducer always keeps one of its two arguments. *)
Lemma nearer_either (p c : option Z) : nearer goal p c = p \/ nearer goal p c = c.
Proof.
  unfold nearer. destruct (JS.lt _ _); auto.
Qed.

Lemma fold_nearer_in (rest : list (option Z)) :
  forall acc, In (fold_left (nearer goal) rest acc) (acc :: rest).
Proof.
  induction rest as [|c rest IH]; intros acc; simpl.
  - now left.
  - destruct (IH (nearer goal acc c)) as [E | HIn].
    + rewrite <- E. destruct (nearer_either acc c) as [-> | ->]; auto.
    + right; now right.
Qed.

(** The invariant of the scan: the accumulator [x] splits what has been
    read into elements strictly farther than it (before it) and
    elements at least as far (after it). *)
Lemma fold_nearer_split (rest : list Z) :
  forall (pre mid : list Z) (x : Z),
    (forall w, In w pre -> distance goal x < distance goal w) ->
    (forall w, In w mid -> distance goal x <= distance goal w) ->
    exists r pre' post',
      fold_left (nearer goal) (map Some rest) (Some x) = Some r /\
      (pre ++ x :: mid ++ rest = pre' ++ r :: post')%list /\
      (forall w, In w pre' -> distance goal r < distance goal w) /\
      (forall w, In w post' -> distance goal r <= distance goal w).
Proof.
  induction rest as [|c rest IH]; intros pre mid x Hpre Hmid.
  - exists x, pre, mid. rewrite app_nil_r. auto.
  - cbn [map fold_left]. rewrite nearer_numbers.
    destruct (Z.ltb_spec (distance goal c) (distance goal x)) as [Hlt | Hge].
    + assert (Hpre' : forall w, In w (pre ++ x :: mid)%list ->
                                distance goal c < distance goal w).
      { intros w Hw. apply in_app_or in Hw as [Hw | [<- | Hw]].
        - specialize (Hpre w Hw). lia.
        - exact Hlt.
        - specialize (Hmid w Hw). lia. }
      destruct (IH (pre ++ x :: mid)%list [] c Hpre') as (r & pre' & post' & E & S & A & B).
      * intros w [].
      * exists r, pre', post'. repeat split; auto.
        rewrite <- S. simpl. now rewrite <- app_assoc.
    + assert (Hmid' : forall w, In w (mid ++ [c])%list ->
                                distance goal x <= distance goal w).
      { intros w Hw. apply in_app_or in Hw as [Hw | [<- | []]]; auto. }
      destruct (IH pre (mid ++ [c])%list x Hpre Hmid') as (r & pre' & post' & E & S & A & B).
      exists r, pre', post'. repeat split; auto.
      rewrite <- S. now rewrite <- app_assoc.
Qed.

End ClosestFacts.

(** On a non-empty array [Closest] returns, and returns an element. *)
Lemma Closest_returns_element (v : option Z) (vs : list (option Z)) (goal : Z) :
  exists r, Closest (v :: vs) goal = JS.Ok r /\ In r (v :: vs).
Proof.
  exists (fold_left (nearer goal) vs v). split; [reflexivity|].
  apply fold_nearer_in.
Qed.

Lemma Closest_nonempty (values : list (option Z)) (goal : Z) :
  values <> [] ->
  exists r, Closest values goal = JS.Ok r /\ In r values.
Proof.
  destruct values as [|v vs]; [congruence|]. intros _.
  apply Closest_returns_element.
Qed.

(** The scan of [Closest] over numbers. *)
Lemma Closest_split (values : list Z) (goal : Z) :
  values <> [] ->
  exists r pre post,
    Closest (map Some values) goal = JS.Ok (Some r) /\
    values = (pre ++ r :: post)%list /\
    (forall w, In w pre -> distance goal r < distance goal w) /\
    (forall w, In w post -> distance goal r <= distance goal w).
Proof.
  destruct values as [|v vs]; [congruence|]. intros _.
  destruct (fold_nearer_split goal vs [] [] v) as (r & pre & post & E & S & A & B);
    try (intros w []).
  exists r, pre, post. repeat split; auto.
  unfold Closest; simpl. now rewrite E.
Qed.

(** *** On binary64 numbers *)

Section Binary64Facts.

Lemma SFcompare_abs (f g : spec_float) :
  SFcompare (SFabs f) (SFabs g) =
  match magnitude f, magnitude g with
  | Some (a1, a2, a3), Some (b1, b2, b3) =>
      Some match a1 ?= b1 with
           | Eq => match a2 ?= b2 with
                   | Eq => a3 ?= b3
                   | c => c
                   end
           | c => c
           end
  | _, _ => None
  end.
Proof.
  destruct f as [s1 | s1 | | s1 m1 e1], g as [s2 | s2 | | s2 m2 e2];
    reflexivity.
Qed.

Lemma SFltb_abs (f g : spec_float) :
  SFltb (SFabs f) (SFabs g) = true <->
  exists a b, magnitude f = Some a /\ magnitude g = Some b /\ key_lt a b.
Proof.
  unfold SFltb. rewrite SFcompare_abs.
  destruct (magnitude f) as [[[a1 a2] a3]|];
    [|split; [discriminate | intros (? & ? & [=] & _)]].
  destruct (magnitude g) as [[[b1 b2] b3]|];
    [|split; [discriminate | intros (? & ? & _ & [=] & _)]].
  split.
  - intros H. exists (a1, a2, a3), (b1, b2, b3). repeat split. simpl.
    destruct (Z.compare_spec a1 b1); try discriminate; try lia.
    destruct (Z.compare_spec a2 b2); try discriminate; try lia.
    destruct (Z.compare_spec a3 b3); try discriminate; lia.
  - intros (a & b & [= <-] & [= <-] & H). simpl in H.
    destruct (Z.compare_spec a1 b1); try lia; try reflexivity.
    destruct (Z.compare_spec a2 b2); try lia; try reflexivity.
    destruct (Z.compare_spec a3 b3); try lia; reflexivity.
Qed.

Lemma SFleb_abs (f g : spec_float) :
  SFleb (SFabs f) (SFabs g) = true <->
  exists a b, magnitude f = Some a /\ magnitude g = Some b /\ key_le a b.
Proof.
  unfold SFleb. rewrite SFcompare_abs.
  destruct (magnitude f) as [[[a1 a2] a3]|];
    [|split; [discriminate | intros (? & ? & [=] & _)]].
  destruct (magnitude g) as [[[b1 b2] b3]|];
    [|split; [discriminate | intros (? & ? & _ & [=] & _)]].
  split.
  - intros H. exists (a1, a2, a3), (b1, b2, b3). repeat split. simpl.
    destruct (Z.compare_spec a1 b1); try discriminate; try lia.
    destruct (Z.compare_spec a2 b2); try discriminate; try lia.
    destruct (Z.compare_spec a3 b3); try discriminate; lia.
  - intros (a & b & [= <-] & [= <-] & H). simpl in H.
    destruct (Z.compare_spec a1 b1); try lia; try reflexivity.
    destruct (Z.compare_spec a2 b2); try lia; try reflexivity.
    destruct (Z.compare_spec a3 b3); try lia; reflexivity.
Qed.

Lemma abs_ltb_iff (x y : float) :
  (abs x <? abs y)%float = true <->
  exists a b, magnitudeOf x = Some a /\ magnitudeOf y = Some b /\ key_lt a b.
Proof. rewrite ltb_spec, !abs_spec. apply SFltb_abs. Qed.

Lemma abs_leb_iff (x y : float) :
  (abs x <=? abs y)%float = true <->
  exists a b, magnitudeOf x = Some a /\ magnitudeOf y = Some b /\ key_le a b.
Proof. rewrite leb_spec, !abs_spec. apply SFleb_abs. Qed.

Lemma abs_not_nan_iff (x : float) :
  is_nan (abs x) = false <-> exists a, magnitudeOf x = Some a.
Proof.
  unfold is_nan, magnitudeOf. rewrite eqb_spec, abs_spec. unfold SFeqb.
  rewrite SFcompare_abs.
  destruct (magnitude (Prim2SF x)) as [[[a1 a2] a3]|]; simpl.
  - rewrite !Z.compare_refl. split; eauto.
  - split; [discriminate | intros [? [=]]].
Qed.

Lemma abs_ltb_leb (x y : float) :
  (abs x <? abs y)%float = true -> (abs x <=? abs y)%float = true.
Proof.
  rewrite abs_ltb_iff, abs_leb_iff. intros (a & b & Ka & Kb & H).
  exists a, b. repeat split; try assumption.
  destruct a as [[? ?] ?], b as [[? ?] ?]; simpl in *; lia.
Qed.

Lemma abs_leb_refl (x : float) :
  is_nan (abs x) = false -> (abs x <=? abs x)%float = true.
Proof.
  rewrite abs_not_nan_iff, abs_leb_iff. intros [a Ka].
  exists a, a. repeat split; try assumption.
  destruct a as [[? ?] ?]; simpl; lia.
Qed.

Variable goal : float.

(** The invariant of the scan, when no distance is [NaN]: the
    accumulator [x] splits what has been read into numbers strictly
    farther than it (before it) and numbers at least as far (after
    it). *)
Lemma fold_nearer64_split (rest : list float) :
  forall (pre mid : list float) (x : float),
    is_nan (abs (x - goal)) = false ->
    (forall w, In w rest -> is_nan (abs (w - goal)) = false) ->
    (forall w, In w pre -> (abs (x - goal) <? abs (w - goal))%float = true) ->
    (forall w, In w mid -> (abs (x - goal) <=? abs (w - goal))%float = true) ->
    exists r pre' post',
      fold_left (Binary64.nearer goal) rest x = r /\
      (pre ++ x :: mid ++ rest = pre' ++ r :: post')%list /\
      (forall w, In w pre' -> (abs (r - goal) <? abs (w - goal))%float = true) /\
      (forall w, In w post' -> (abs (r - goal) <=? abs (w - goal))%float = true).
Proof.
  induction rest as [|c rest IH]; intros pre mid x Hx Hrest Hpre Hmid.
  - exists x, pre, mid. rewrite app_nil_r. auto.
  - cbn [fold_left]. unfold Binary64.nearer at 2.
    assert (Hc : is_nan (abs (c - goal)) = false) by (apply Hrest; now left).
    assert (Hrest' : forall w, In w rest -> is_nan (abs (w - goal)) = false)
      by (intros w Hw; apply Hrest; now right).
    destruct (abs (c - goal) <? abs (x - goal))%float eqn:Hlt.
    + assert (Hpre' : forall w, In w (pre ++ x :: mid)%list ->
                                (abs (c - goal) <? abs (w - goal))%float = true).
      { apply abs_ltb_iff in Hlt as (kc & kx & Kc & Kx & Hcx).
        intros w Hw. apply abs_ltb_iff.
        apply in_app_or in Hw as [Hw | [<- | Hw]].
        - apply Hpre, abs_ltb_iff in Hw as (kx' & kw & Kx' & Kw & Hxw).
          rewrite Kx in Kx'. injection Kx' as <-.
          exists kc, kw. repeat split; try assumption.
          destruct kc as [[? ?] ?], kx as [[? ?] ?], kw as [[? ?] ?]; simpl in *; lia.
        - exists kc, kx. auto.
        - apply Hmid, abs_leb_iff in Hw as (kx' & kw & Kx' & Kw & Hxw).
          rewrite Kx in Kx'. injection Kx' as <-.
          exists kc, kw. repeat split; try assumption.
          destruct kc as [[? ?] ?], kx as [[? ?] ?], kw as [[? ?] ?]; simpl in *; lia. }
      destruct (IH (pre ++ x :: mid)%list [] c Hc Hrest' Hpre') as (r & pre' & post' & E & S & A & B).
      * intros w [].
      * exists r, pre', post'. repeat split; auto.
        rewrite <- S. simpl. now rewrite <- app_assoc.
    + assert (Hmid' : forall w, In w (mid ++ [c])%list ->
                                (abs (x - goal) <=? abs (w - goal))%float = true).
      { intros w Hw. apply in_app_or in Hw as [Hw | [<- | []]]; [auto|].
        apply abs_not_nan_iff in Hx as [kx Kx]. apply abs_not_nan_iff in Hc as [kc Kc].
        apply abs_leb_iff. exists kx, kc. repeat split; try assumption.
        destruct kc as [[c1 c2] c3], kx as [[x1 x2] x3]. simpl.
        destruct (Z.lt_trichotomy x1 c1) as [? | [? | ?]]; [lia | |];
          destruct (Z.lt_trichotomy x2 c2) as [? | [? | ?]]; try lia;
          destruct (Z.le_gt_cases x3 c3); try lia;
          exfalso;
          (assert (T : (abs (c - goal) <? abs (x - goal))%float = true);
           [apply abs_ltb_iff; exists (c1, c2, c3), (x1, x2, x3);
            repeat split; try assumption; simpl; lia
           | rewrite T in Hlt; discriminate]). }
      destruct (IH pre (mid ++ [c])%list x Hx Hrest' Hpre Hmid') as (r & pre' & post' & E & S & A & B).
      exists r, pre', post'. repeat split; auto.
      rewrite <- S. now rewrite <- app_assoc.
Qed.

End Binary64Facts.

Lemma Closest64_split (values : list float) (goal : float) :
  values <> [] ->
  (forall v, In v values -> is_nan (abs (v - goal)) = false) ->
  exists r pre post,
    Binary64.Closest values goal = JS.Ok r /\
    values = (pre ++ r :: post)%list /\
    (forall w, In w pre -> (abs (r - goal) <? abs (w - goal))%float = true) /\
    (forall w, In w post -> (abs (r - goal) <=? abs (w - goal))%float = true) /\
    (forall w, In w values -> (abs (r - goal) <=? abs (w - goal))%float = true).
Proof.
  destruct values as [|v vs]; [congruence|]. intros _ Hnan.
  destruct (fold_nearer64_split goal vs [] [] v) as (r & pre & post & E & S & A & B).
  - apply Hnan. now left.
  - intros w Hw. apply Hnan. now right.
  - intros w [].
  - intros w [].
  - simpl in S. exists r, pre, post. repeat split; auto.
    + unfold Binary64.Closest; simpl. now rewrite E.
    + intros w Hw. rewrite S in Hw. apply in_app_or in Hw as [Hw | [<- | Hw]].
      * apply abs_ltb_leb. now apply A.
      * apply abs_leb_refl. apply Hnan. rewrite S. apply in_or_app. right. now left.
      * now apply B.
Qed.

(** The counterexample to C2: [Closest([NaN, 1], 0)] is [NaN], an
    element that is not at minimal distance from the goal: every
    comparison with its distance is false. *)
Lemma Closest_keeps_NaN :
  ~ nearest_of_all [nan; 1%float] 0%float.
Proof.
  intros (r & E & _ & H).
  assert (Hr : r = nan) by (vm_compute in E; now injection E).
  specialize (H 1%float (or_intror (or_introl eq_refl))).
  rewrite Hr in H. vm_compute in H. discriminate H.
Qed.

(** C2, amended: on a non-empty sequence of numbers none of which has
    [NaN] as its distance [Math.abs(value - goal)], [Closest] returns an
    element of the sequence at minimal distance from the goal, the
    distance being what binary64 computes, and among the elements at
    that distance the one that comes first: everything before it is
    strictly farther from the goal, everything after it is at least as
    far.  In particular [Closest([1, 5, 10], 4)] is 5 and
    [Closest([1, 3], 2)] is 1. *)
Theorem Closest_nearest_earliest :
  (forall (values : list float) (goal : float),
      values <> [] ->
      (forall v, In v values -> is_nan (abs (v - goal)) = false) ->
      exists r pre post,
        Binary64.Closest values goal = JS.Ok r /\
        values = (pre ++ r :: post)%list /\
        (forall w, In w pre -> (abs (r - goal) <? abs (w - goal))%float = true) /\
        (forall w, In w post -> (abs (r - goal) <=? abs (w - goal))%float = true) /\
        (forall w, In w values -> (abs (r - goal) <=? abs (w - goal))%float = true)) /\
  Binary64.Closest [1; 5; 10]%float 4%float = JS.Ok 5%float /\
  Binary64.Closest [1; 3]%float 2%float = JS.Ok 1%float.
Proof.
  split; [exact Closest64_split | split; reflexivity].
Qed.

(** The witness of C2: the scan of [[1; 3]] for the goal 2, a tie. *)
Lemma Closest_nearest_earliest_witness :
  exists r pre post,
    Binary64.Closest [1; 3]%float 2%float = JS.Ok r /\
    [1; 3]%float = (pre ++ r :: post)%list /\
    (forall w, In w pre -> (abs (r - 2) <? abs (w - 2))%float = true) /\
    (forall w, In w post -> (abs (r - 2) <=? abs (w - 2))%float = true) /\
    (forall w, In w [1; 3]%float -> (abs (r - 2) <=? abs (w - 2))%float = true).
Proof.
  apply (proj1 Closest_nearest_earliest [1; 3]%float 2%float).
  - discriminate.
  - intros v [<- | [<- | []]]; reflexivity.
Defined.

(** Beyond 2^53 two different exact distances can be one binary64
    number: both elements are then at the same distance, and the first
    is kept.  The model on integers rounds in the same way. *)
Example Closest_rounded_tie :
  Binary64.Closest [9007199254740992; 9007199254740991]%float (-1)%float =
  JS.Ok 9007199254740992%float /\
  Closest [Some (2 ^ 53); Some (2 ^ 53 - 1)] (-1) = JS.Ok (Some (2 ^ 53)) /\
  distance (-1) (2 ^ 53) = distance (-1) (2 ^ 53 - 1) /\
  exactDistance (-1) (2 ^ 53 - 1) < exactDistance (-1) (2 ^ 53).
Proof. repeat split. Qed.

(** An index that is [undefined] is never replaced and never chosen over
    a number it follows: its distance is [NaN]. *)
Example Closest_undefined_first : Closest [None; Some 1] 1 = JS.Ok None.
Proof. reflexivity. Qed.

(** ** The focusability predicate *)

(** C6: [isNodeFocusable] returns [isFocusable] when it is set, so that
    an explicit [false] wins over a [selectAction], and otherwise
    [selectAction] coerced to a boolean; with the three values the
    specification lists. *)
Theorem isNodeFocusable_spec :
  forall node : Node,
    (forall b, isFocusable node = Some b -> isNodeFocusable node = b) /\
    (isFocusable node = None ->
     isNodeFocusable node = JS.truthy (selectAction node)) /\
    (isFocusable node = None ->
     forall fn, selectAction node = JS.VObject fn -> isNodeFocusable node = true) /\
    (isFocusable node = None ->
     selectAction node = JS.VUndefined -> isNodeFocusable node = false) /\
    (forall fn,
        isNodeFocusable
          (mkNode None None None None (JS.VObject fn) (Some false)
                  None None None None None None None) = false) /\
    (forall fn,
        isNodeFocusable
          (mkNode None None None None (JS.VObject fn) None
                  None None None None None None None) = true) /\
    isNodeFocusable emptyNode = false.
Proof.
  intros node. unfold isNodeFocusable.
  repeat split; try reflexivity.
  - intros b ->. reflexivity.
  - intros ->. reflexivity.
  - intros -> fn ->. reflexivity.
  - intros -> ->. reflexivity.
Qed.

(** ** The index resolver *)

Section ObjectFacts.

Context {A : Type}.

Lemma get_of_key (o : JS.object A) (k : string) :
  In k (JS.keys o) -> exists v, JS.get o k = Some v /\ In (k, v) o.
Proof.
  induction o as [|[k' v'] o IH]; simpl; [easy|].
  intros Hk. destruct (String.eqb_spec k' k) as [-> | Hne].
  - exists v'. auto.
  - destruct Hk as [Hk | Hk]; [contradiction|].
    destruct (IH Hk) as (v & Hget & Hin). exists v. auto.
Qed.

Lemma get_some_in (o : JS.object A) (k : string) (v : A) :
  JS.get o k = Some v -> In (k, v) o.
Proof.
  induction o as [|[k' v'] o IH]; simpl; [discriminate|].
  destruct (String.eqb_spec k' k) as [-> | Hne].
  - intros [= ->]. now left.
  - intros H. right. auto.
Qed.

(** Reading each key of an object gives its entries back, in order:
    the reason a loop over [Object.keys(o)] that reads [o[k]] is a
    loop over the entries. *)
Lemma get_each_key (o : JS.object A) :
  NoDup (JS.keys o) ->
  map (fun k => (k, JS.get o k)) (JS.keys o) =
  map (fun kv => (fst kv, Some (snd kv))) o.
Proof.
  induction o as [|[k v] o IH]; simpl; [reflexivity|].
  intros Hnd. inversion Hnd as [|? ? Hnotin Hnd']; subst.
  rewrite String.eqb_refl. f_equal.
  rewrite <- (IH Hnd'). apply map_ext_in.
  intros k' Hk'. destruct (String.eqb_spec k k') as [-> | _]; [contradiction|].
  reflexivity.
Qed.

Lemma find_is_some (p : A -> bool) (xs : list A) (x : A) :
  In x xs -> p x = true -> exists y, List.find p xs = Some y.
Proof.
  intros Hin Hp. destruct (List.find p xs) as [y|] eqn:E; [eauto|].
  rewrite (find_none _ _ E x Hin) in Hp. discriminate.
Qed.

End ObjectFacts.

Lemma strict_eq_refl (a : option Z) : JS.strict_eq a a = true.
Proof. destruct a; simpl; [apply Z.eqb_refl | reflexivity]. Qed.

Lemma candidateIndexes_in (cs : JS.object Node) (v : option Z) :
  In v (candidateIndexes cs) ->
  exists k c, In (k, c) cs /\ isCandidate c = true /\ index c = v.
Proof.
  unfold candidateIndexes. rewrite in_map_iff.
  intros ([k c] & Hv & Hin). apply filter_In in Hin as [Hin Hc].
  exists k, c. auto.
Qed.

Lemma candidateIndexes_of (cs : JS.object Node) (k : string) (c : Node) :
  In (k, c) cs -> isCandidate c = true -> In (index c) (candidateIndexes cs).
Proof.
  intros Hin Hc. unfold candidateIndexes. apply in_map_iff.
  exists (k, c). split; [reflexivity|]. apply filter_In. auto.
Qed.

(** What [_findChildWithClosestIndex] does past the shortcut. *)
Lemma _findChildWithClosestIndex_scan (node : Node) (cs : JS.object Node)
  (index' : Z) (indexRange' : option (list Z)) :
  children node = Some cs ->
  activeChildInRange indexRange' (JS.get cs (JS.to_string (activeChild node))) = false ->
  _findChildWithClosestIndex node index' indexRange' =
  match candidateIndexes cs with
  | [] => JS.Ok None
  | _ :: _ =>
      closest <- Closest (candidateIndexes cs) index' ;;
      JS.Ok (_findChildWithIndex node closest)
  end.
Proof.
  intros Hcs Hno. unfold _findChildWithClosestIndex. rewrite Hcs, Hno.
  destruct (candidateIndexes cs); reflexivity.
Qed.

(** [_findChildWithClosestIndex] never throws: [Closest] is reached with
    a non-empty array only. *)
Lemma _findChildWithClosestIndex_returns (node : Node) (index' : Z)
  (indexRange' : option (list Z)) :
  exists r, _findChildWithClosestIndex node index' indexRange' = JS.Ok r.
Proof.
  unfold _findChildWithClosestIndex.
  destruct (children node) as [cs|]; [|eauto].
  destruct (activeChildInRange _ _); [eauto|].
  destruct (candidateIndexes cs) as [|v vs] eqn:E; [simpl; eauto|].
  cbn [List.length Z.leb].
  destruct (Closest_returns_element v vs index') as (r & -> & _).
  replace (Z.of_nat (S (List.length vs)) <=? 0) with false
    by (symmetry; apply Z.leb_gt; lia).
  simpl. eauto.
Qed.

(** The shortcut is only taken on a focusable child, so it is never
    taken when there is no candidate. *)
Lemma activeChildInRange_candidate (cs : JS.object Node) (k : string)
  (indexRange' : option (list Z)) :
  activeChildInRange indexRange' (JS.get cs k) = true ->
  candidateIndexes cs <> [].
Proof.
  unfold activeChildInRange.
  destruct indexRange' as [r|]; [|discriminate].
  destruct (JS.get cs k) as [ac|] eqn:Hget; [|discriminate].
  intros H. apply andb_true_iff in H as [_ Hf].
  apply get_some_in in Hget.
  intros Hnil. apply (candidateIndexes_of cs k ac) in Hget.
  - rewrite Hnil in Hget. destruct Hget.
  - unfold isCandidate. now rewrite Hf.
Qed.

(** Without a candidate the result is [null], and [Closest] is not
    reached. *)
Lemma _findChildWithClosestIndex_no_candidate (node : Node) (cs : JS.object Node)
  (index' : Z) (indexRange' : option (list Z)) :
  children node = Some cs -> candidateIndexes cs = [] ->
  _findChildWithClosestIndex node index' indexRange' = JS.Ok None.
Proof.
  intros Hcs Hnil.
  destruct (activeChildInRange indexRange'
              (JS.get cs (JS.to_string (activeChild node)))) eqn:Hact.
  - now apply activeChildInRange_candidate in Hact.
  - rewrite (_findChildWithClosestIndex_scan node cs index' indexRange' Hcs Hact).
    now rewrite Hnil.
Qed.

(** C1: when an [indexRange] is given and [activeChild] names a child
    whose index lies within it (bounds included) and which is focusable,
    [_findChildWithClosestIndex] returns that child, whatever the target
    index and the candidates are. *)
Theorem activeChild_in_range_is_returned
  (node : Node) (cs : JS.object Node) (a : string) (ac : Node)
  (index' : Z) (r : list Z) (lo hi i : Z) :
  children node = Some cs ->
  activeChild node = Some a ->
  JS.get cs a = Some ac ->
  nth_error r 0 = Some lo ->
  nth_error r 1 = Some hi ->
  index ac = Some i ->
  lo <= i <= hi ->
  isNodeFocusable ac = true ->
  _findChildWithClosestIndex node index' (Some r) = JS.Ok (Some ac).
Proof.
  intros Hcs Ha Hget Hlo Hhi Hi [Hle1 Hle2] Hf.
  unfold _findChildWithClosestIndex. rewrite Hcs, Ha. simpl JS.to_string.
  rewrite Hget. unfold activeChildInRange, withinRange.
  rewrite Hlo, Hhi, Hi, Hf. simpl.
  apply Z.geb_le in Hle1. apply Z.leb_le in Hle2.
  now rewrite Hle1, Hle2.
Qed.

(** The witness of C1: with the range [[4, 6]] the active child [y] is
    returned, although the scan for the nearest index returns [x]. *)
Lemma activeChild_in_range_is_returned_witness :
  _findChildWithClosestIndex twoSelectable 0 (Some [4; 6]) = JS.Ok (Some (selectable 5 2)) /\
  _findChildWithClosestIndex twoSelectable 0 None = JS.Ok (Some (selectable 0 1)).
Proof.
  split.
  - apply (activeChild_in_range_is_returned
             twoSelectable [("x", selectable 0 1); ("y", selectable 5 2)]
             "y" (selectable 5 2) 0 [4; 6] 4 6 5);
      try reflexivity.
    split; discriminate.
  - reflexivity.
Defined.

(** At [emptyIdChild] this fails: the child is a candidate and the
    shortcut is not taken, yet the result is [null]. *)
Lemma null_only_without_candidates_fails :
  ~ null_only_without_candidates emptyIdChild 0 None.
Proof.
  unfold null_only_without_candidates; simpl.
  intros [_ H]. destruct H as [c Hc]; [discriminate | reflexivity |].
  discriminate Hc.
Qed.

(** [_findChildWithIndex] on a node with children: the first child with
    the index is looked for, and read back through its id when that id
    is truthy. *)
Lemma _findChildWithIndex_first (node : Node) (cs : JS.object Node)
  (v : option Z) (k : string) (c : Node) :
  children node = Some cs ->
  List.find (fun '(_, ch) => JS.strict_eq (index ch) v) cs = Some (k, c) ->
  _findChildWithIndex node v = if String.eqb k "" then None else JS.get cs k.
Proof.
  intros Hcs Hfind. unfold _findChildWithIndex, JS.find. rewrite Hcs, Hfind.
  simpl. now destruct (String.eqb k "").
Qed.

(** What the scan returns: [null] when the node has no children and
    when no child is a candidate; in every other case that does not take
    the shortcut, some child [k] is the first to carry the closest index,
    and the result is a child of the node with that id when [k] is not
    the empty string, and [null] when it is. *)
Theorem null_without_candidates_or_id :
  forall (node : Node) (index' : Z) (indexRange' : option (list Z)),
    (children node = None ->
     _findChildWithClosestIndex node index' indexRange' = JS.Ok None) /\
    (forall cs, children node = Some cs -> candidateIndexes cs = [] ->
     _findChildWithClosestIndex node index' indexRange' = JS.Ok None) /\
    (forall cs, children node = Some cs -> candidateIndexes cs <> [] ->
     activeChildInRange indexRange' (JS.get cs (JS.to_string (activeChild node))) = false ->
     exists v k c,
       Closest (candidateIndexes cs) index' = JS.Ok v /\
       List.find (fun '(_, ch) => JS.strict_eq (index ch) v) cs = Some (k, c) /\
       (k <> "" ->
        exists c', In (k, c') cs /\
                   _findChildWithClosestIndex node index' indexRange' = JS.Ok (Some c')) /\
       (k = "" ->
        _findChildWithClosestIndex node index' indexRange' = JS.Ok None)).
Proof.
  intros node index' indexRange'. split; [|split].
  - intros Hcs. unfold _findChildWithClosestIndex. now rewrite Hcs.
  - intros cs. apply _findChildWithClosestIndex_no_candidate.
  - intros cs Hcs Hne Hact.
    rewrite (_findChildWithClosestIndex_scan node cs index' indexRange' Hcs Hact).
    destruct (Closest_nonempty _ index' Hne) as (v & HC & Hin).
    destruct (candidateIndexes_in cs v Hin) as (k0 & c0 & Hin0 & _ & Hidx).
    destruct (find_is_some (fun '(_, ch) => JS.strict_eq (index ch) v) cs (k0, c0) Hin0)
      as ([k c] & Hfind).
    { rewrite Hidx. apply strict_eq_refl. }
    exists v, k, c. split; [exact HC|]. split; [exact Hfind|].
    destruct (candidateIndexes cs) as [|v0 vs]; [congruence|].
    rewrite HC. simpl. rewrite (_findChildWithIndex_first node cs v k c Hcs Hfind).
    split.
    + intros Hk. apply String.eqb_neq in Hk. rewrite Hk.
      apply find_some in Hfind as [Hink _].
      destruct (get_of_key cs k) as (c' & Hget & Hin').
      { apply in_map_iff. exists (k, c). auto. }
      exists c'. rewrite Hget. auto.
    + intros ->. reflexivity.
Qed.

(** The scan of [twoSelectable] for the index 0. *)
Lemma null_without_candidates_or_id_witness :
  exists v k c,
    Closest (candidateIndexes [("x", selectable 0 1); ("y", selectable 5 2)]) 0 = JS.Ok v /\
    List.find (fun '(_, ch) => JS.strict_eq (index ch) v)
              [("x", selectable 0 1); ("y", selectable 5 2)] = Some (k, c) /\
    (k <> "" ->
     exists c', In (k, c') [("x", selectable 0 1); ("y", selectable 5 2)] /\
                _findChildWithClosestIndex twoSelectable 0 None = JS.Ok (Some c')) /\
    (k = "" ->
     _findChildWithClosestIndex twoSelectable 0 None = JS.Ok None).
Proof.
  apply (proj2 (proj2 (null_without_candidates_or_id twoSelectable 0 None))
               [("x", selectable 0 1); ("y", selectable 5 2)]);
    [reflexivity | discriminate | reflexivity].
Defined.

(** C3: at [emptyIdChild] the code does not do what is expected of it.
    The only child is a candidate, the shortcut is not taken, and the
    result is [null]: [_findChildWithIndex] finds the key [""], which
    its test [if (childIdWithMatchingIndex)] takes for no key.  The
    shortcut of the same function, which reads
    [node.children[node.activeChild]] without such a test, does return
    the child with the id [""]. *)
Theorem empty_id_child_is_not_found :
  children emptyIdChild = Some [("", selectable 0 1)] /\
  candidateIndexes [("", selectable 0 1)] = [Some 0] /\
  Closest [Some 0] 0 = JS.Ok (Some 0) /\
  _findChildWithIndex emptyIdChild (Some 0) = None /\
  _findChildWithClosestIndex emptyIdChild 0 None = JS.Ok None /\
  _findChildWithClosestIndex emptyIdActive 0 (Some [0; 0]) =
  JS.Ok (Some (selectable 0 1)).
Proof. repeat split. Qed.

(** C8: [Closest] returns an element of every non-empty array, it throws
    on the empty array, and [_findChildWithClosestIndex] never throws:
    it returns [null] before calling [Closest] when there is no
    candidate. *)
Theorem Closest_total_on_nonempty :
  (forall (v : option Z) (vs : list (option Z)) (goal : Z),
      exists r, Closest (v :: vs) goal = JS.Ok r /\ In r (v :: vs)) /\
  (forall goal : Z, Closest [] goal = JS.Throw JS.TypeError) /\
  (forall (node : Node) (index' : Z) (indexRange' : option (list Z)),
      exists r, _findChildWithClosestIndex node index' indexRange' = JS.Ok r) /\
  (forall (node : Node) (cs : JS.object Node) (index' : Z)
          (indexRange' : option (list Z)),
      children node = Some cs -> candidateIndexes cs = [] ->
      _findChildWithClosestIndex node index' indexRange' = JS.Ok None).
Proof.
  repeat split.
  - apply Closest_returns_element.
  - apply _findChildWithClosestIndex_returns.
  - apply _findChildWithClosestIndex_no_candidate.
Qed.

(** C9: past the shortcut, the child returned for the closest candidate
    index is looked up by [_findChildWithIndex] among all the children
    of the node; so on [sharedIndex] the result is [x], a child that is
    neither focusable nor has children, and that precedes the candidate
    [y] with the same index. *)
Theorem closest_index_resolved_over_all_children :
  (forall (node : Node) (cs : JS.object Node) (index' : Z)
          (indexRange' : option (list Z)),
      children node = Some cs ->
      activeChildInRange indexRange' (JS.get cs (JS.to_string (activeChild node))) = false ->
      candidateIndexes cs <> [] ->
      exists v,
        Closest (candidateIndexes cs) index' = JS.Ok v /\
        _findChildWithClosestIndex node index' indexRange' =
        JS.Ok (_findChildWithIndex node v)) /\
  (exists c,
      _findChildWithClosestIndex sharedIndex 1 None = JS.Ok (Some c) /\
      children sharedIndex = Some [("x", c); ("y", selectable 1 7)] /\
      candidateIndexes [("x", c); ("y", selectable 1 7)] = [Some 1] /\
      isNodeFocusable (selectable 1 7) = true /\
      index c = index (selectable 1 7) /\
      isNodeFocusable c = false /\
      children c = None).
Proof.
  split.
  - intros node cs index' indexRange' Hcs Hact Hne.
    rewrite (_findChildWithClosestIndex_scan node cs index' indexRange' Hcs Hact).
    destruct (Closest_nonempty _ index' Hne) as (v & HC & _).
    exists v. split; [exact HC|].
    destruct (candidateIndexes cs); [congruence|].
    now rewrite HC.
  - exists (indexed 1). repeat split.
Qed.

(** ** Path membership *)

Section StringFacts.

Lemma append_assoc (a b c : string) : (a ++ b) ++ c = a ++ (b ++ c).
Proof. induction a as [|x a IH]; simpl; [reflexivity | now rewrite IH]. Qed.

Lemma append_empty_r (a : string) : a ++ "" = a.
Proof. induction a as [|x a IH]; simpl; [reflexivity | now rewrite IH]. Qed.

Lemma length_append (a b : string) :
  JS.length (a ++ b) = JS.length a + JS.length b.
Proof.
  unfold JS.length. induction a as [|x a IH]; simpl String.length.
  - reflexivity.
  - rewrite !Nat2Z.inj_succ. simpl in IH. lia.
Qed.

Lemma length_nonneg (a : string) : 0 <= JS.length a.
Proof. unfold JS.length. lia. Qed.

Lemma length_zero (a : string) : JS.length a <= 0 -> a = "".
Proof.
  destruct a; [reflexivity|]. unfold JS.length. simpl String.length. lia.
Qed.

Lemma length_cons (x : ascii) (a : string) :
  JS.length (String x a) = 1 + JS.length a.
Proof. unfold JS.length. simpl String.length. lia. Qed.

(** [starts_with] is "is a prefix of". *)
Lemma starts_with_iff (needle hay : string) :
  JS.starts_with needle hay = true <-> exists t, hay = needle ++ t.
Proof.
  revert hay. induction needle as [|x n IH]; intros hay; simpl.
  - split; [eauto | reflexivity].
  - destruct hay as [|y h].
    + split; [discriminate | intros [t Ht]; discriminate].
    + rewrite andb_true_iff, IH. split.
      * intros [Hxy [t ->]]. apply Ascii.eqb_eq in Hxy as ->. eauto.
      * intros [t [= -> ->]]. split; [apply Ascii.eqb_refl | eauto].
Qed.

(** [lastIndexOf] from position 0 tests the prefix only. *)
Lemma lastIndexOf_0 (hay needle : string) :
  JS.lastIndexOf hay needle 0 = if JS.starts_with needle hay then 0 else -1.
Proof.
  unfold JS.lastIndexOf. destruct hay as [|x [|y h]]; reflexivity.
Qed.

Lemma index_from_range (needle hay : string) :
  forall pos base,
    JS.index_from needle hay pos base = -1 \/
    base <= JS.index_from needle hay pos base.
Proof.
  induction hay as [|y h IH]; intros pos base; simpl;
    destruct ((pos <=? base) && JS.starts_with needle _); try lia.
  destruct (IH pos (base + 1)); lia.
Qed.

(** [index_from] finds an occurrence exactly when there is one at or
    after [pos]. *)
Lemma index_from_found (needle hay : string) :
  forall pos base,
    0 <= base ->
    JS.index_from needle hay pos base <> -1 <->
    exists a b, hay = a ++ needle ++ b /\ pos <= base + JS.length a.
Proof.
  induction hay as [|y h IH]; intros pos base Hbase.
  - simpl. destruct ((pos <=? base) && JS.starts_with needle "") eqn:E.
    + apply andb_true_iff in E as [Hp Hs]. apply Z.leb_le in Hp.
      apply starts_with_iff in Hs as [t Ht].
      split; [intros _ | lia].
      exists "", t. split; [exact Ht | unfold JS.length; simpl; lia].
    + split; [congruence|]. intros (a & b & Hab & Hpos).
      destruct a; [|discriminate]. simpl in Hab.
      assert (Hs : JS.starts_with needle "" = true)
        by (apply starts_with_iff; eauto).
      rewrite Hs, andb_true_r in E. apply Z.leb_gt in E.
      unfold JS.length in Hpos; simpl in Hpos. lia.
  - simpl. destruct ((pos <=? base) && JS.starts_with needle (String y h)) eqn:E.
    + apply andb_true_iff in E as [Hp Hs]. apply Z.leb_le in Hp.
      apply starts_with_iff in Hs as [t Ht].
      split; [intros _ | lia].
      exists "", t. split; [exact Ht | unfold JS.length; simpl; lia].
    + rewrite IH by lia. split.
      * intros (a & b & -> & Hpos). exists (String y a), b.
        split; [reflexivity | rewrite length_cons; lia].
      * intros (a & b & Hab & Hpos). destruct a as [|x a].
        -- simpl in Hab.
           assert (Hs : JS.starts_with needle (String y h) = true)
             by (apply starts_with_iff; eauto).
           rewrite Hs, andb_true_r in E. apply Z.leb_gt in E.
           unfold JS.length in Hpos; simpl in Hpos. lia.
        -- simpl in Hab. injection Hab as -> ->. exists a, b.
           split; [reflexivity | rewrite length_cons in Hpos; lia].
Qed.

(** [indexOf] from position 0 is "occurs in". *)
Lemma indexOf_0_found (hay needle : string) :
  JS.indexOf hay needle 0 <> -1 <-> exists a b, hay = a ++ needle ++ b.
Proof.
  unfold JS.indexOf. rewrite index_from_found by lia. split.
  - intros (a & b & H & _). eauto.
  - intros (a & b & H). exists a, b. split; [exact H|].
    pose proof (length_nonneg a). lia.
Qed.

(** [indexOf] from [length - needle.length] is "ends with". *)
Lemma indexOf_tail_found (hay needle : string) :
  JS.indexOf hay needle (JS.length hay - JS.length needle) <> -1 <->
  exists a, hay = a ++ needle.
Proof.
  unfold JS.indexOf. rewrite index_from_found by lia. split.
  - intros (a & b & H & Hpos). exists a.
    assert (Hlen : JS.length hay = JS.length a + (JS.length needle + JS.length b))
      by (rewrite H, !length_append; reflexivity).
    assert (Hb : b = "") by (apply length_zero; lia).
    subst b. now rewrite append_empty_r in H.
  - intros (a & H). exists a, "". rewrite append_empty_r. split; [exact H|].
    assert (Hlen : JS.length hay = JS.length a + JS.length needle)
      by (rewrite H, length_append; reflexivity).
    pose proof (length_nonneg a). lia.
Qed.

End StringFacts.

(** [isNodeInPath] tests three shapes of the path. *)
Lemma isNodeInPath_iff (path : string) (node : Node) :
  isNodeInPath path node = true <->
  (exists t, path = JS.to_string (id node) ++ "." ++ t) \/
  (exists h, path = h ++ "." ++ JS.to_string (id node)) \/
  (exists h t, path = h ++ "." ++ JS.to_string (id node) ++ "." ++ t).
Proof.
  unfold isNodeInPath. cbv zeta. set (i := JS.to_string (id node)).
  rewrite lastIndexOf_0.
  pose proof (starts_with_iff (i ++ ".") path) as Hpre.
  pose proof (indexOf_tail_found path ("." ++ i)) as Hsuf.
  pose proof (indexOf_0_found path ("." ++ i ++ ".")) as Hmid.
  assert (Hpre' : (exists t, path = (i ++ ".") ++ t) <-> (exists t, path = i ++ "." ++ t)).
  { split; intros [t Ht]; exists t; [now rewrite <- append_assoc | now rewrite append_assoc]. }
  assert (Hmid' : (exists a b, path = a ++ ("." ++ i ++ ".") ++ b) <->
                  (exists h t, path = h ++ "." ++ i ++ "." ++ t)).
  { assert (E : forall a b, a ++ ("." ++ i ++ ".") ++ b = a ++ "." ++ i ++ "." ++ b)
      by (intros a b; simpl; now rewrite append_assoc).
    split; intros (a & b & H); exists a, b; [now rewrite <- E | now rewrite E]. }
  destruct (JS.starts_with (i ++ ".") path) eqn:E1; cbv iota.
  - change (0 =? 0) with true. cbv iota.
    split; [intros _ | reflexivity]. left. apply Hpre', Hpre. reflexivity.
  - change (-1 =? 0) with false. cbv iota.
    destruct (Z.eqb_spec (JS.indexOf path ("." ++ i) (JS.length path - JS.length ("." ++ i))) (-1))
      as [E2 | E2]; cbn [negb].
    + destruct (Z.eqb_spec (JS.indexOf path ("." ++ i ++ ".") 0) (-1)) as [E3 | E3];
        cbn [negb].
      * split; [discriminate|]. intros [H | [H | H]].
        -- apply Hpre', Hpre in H. discriminate.
        -- apply Hsuf in H. contradiction.
        -- apply Hmid', Hmid in H. contradiction.
      * split; [intros _ | reflexivity]. right; right. apply Hmid', Hmid, E3.
    + split; [intros _ | reflexivity]. right; left. apply Hsuf, E2.
Qed.

(** C7: [isNodeInPath] is true exactly when the path starts with the id
    and a dot, ends with a dot and the id, or contains the id between
    two dots ([JS.to_string (id node)] is the id of a node that has
    one); with the four values the specification lists. *)
Theorem isNodeInPath_spec :
  (forall (path : string) (node : Node),
      isNodeInPath path node = true <->
      (exists t, path = JS.to_string (id node) ++ "." ++ t) \/
      (exists h, path = h ++ "." ++ JS.to_string (id node)) \/
      (exists h t, path = h ++ "." ++ JS.to_string (id node) ++ "." ++ t)) /\
  (forall (i : string) (node : Node), id node = Some i -> JS.to_string (id node) = i) /\
  (let withId i :=
     mkNode (Some i) None None None JS.VUndefined None None None None None None None None in
   isNodeInPath "root.a.b" (withId "a") = true /\
   isNodeInPath "root.a.b" (withId "root") = true /\
   isNodeInPath "root.a.b" (withId "b") = true /\
   isNodeInPath "root.a.b" (withId "c") = false).
Proof.
  split; [exact isNodeInPath_iff|]. split.
  - intros i node ->. reflexivity.
  - repeat split.
Qed.

(** C10: a path that is just the id of the node, without a dot, is not
    matched. *)
Theorem isNodeInPath_single_segment (node : Node) (i : string) :
  id node = Some i ->
  i <> "" ->
  isNodeInPath i node = false.
Proof.
  intros Hid _.
  destruct (isNodeInPath i node) eqn:E; [|reflexivity].
  apply isNodeInPath_iff in E. rewrite Hid in E. simpl JS.to_string in E.
  exfalso.
  destruct E as [[t H] | [[h H] | (h & t & H)]];
    apply (f_equal JS.length) in H;
    rewrite !length_append in H;
    change (JS.length ".") with 1 in H;
    pose proof (length_nonneg i).
  - pose proof (length_nonneg t). lia.
  - pose proof (length_nonneg h). lia.
  - pose proof (length_nonneg h). pose proof (length_nonneg t). lia.
Qed.

(** The witness of C10: the path ["root"] and the node with that id. *)
Lemma isNodeInPath_single_segment_witness :
  isNodeInPath "root"
    (mkNode (Some "root") None None None JS.VUndefined None None None None None
            None None None) = false.
Proof.
  apply (isNodeInPath_single_segment _ "root"); [reflexivity | discriminate].
Defined.

(** ** The tree walkers *)

(** Induction on a node with the claim at hand for each of its
    children. *)
Section NodeInduction.

Variable P : Node -> Prop.

Hypothesis step :
  forall node,
    (forall cs, children node = Some cs -> Forall (fun kv => P (snd kv)) cs) ->
    P node.

Lemma Node_children_ind : forall node, P node.
Proof.
  fix IH 1. intros [? ? ? ? ? ? ? ? ? ? ? ? ch]. apply step. simpl.
  destruct ch as [cs|]; intros cs' Heq; [injection Heq as <- | discriminate].
  induction cs as [|[k c] cs IHcs]; constructor; [apply IH | exact IHcs].
Qed.

End NodeInduction.

Lemma nodePreorder_eq (sp : option string) (k : string) (node : Node) :
  nodePreorder sp k node =
  (sp, k, node) ::
  match children node with
  | Some cs => preorder (Some k) cs
  | None => []
  end.
Proof. destruct node; reflexivity. Qed.

Lemma _isNodeInTree_visit_eq (nodeId k : string) (node : Node) (st : walk) :
  _isNodeInTree_visit nodeId k node st =
  let st1 :=
    mkWalk (if String.eqb nodeId k then true else nodeInTree st)
           (visited st ++ [k]) in
  match children node with
  | Some cs => _isNodeInTree nodeId cs st1
  | None => st1
  end.
Proof. destruct node; reflexivity. Qed.

Lemma _getNodesFromTree_visit_eq (parent' : option string) (k : string)
  (node : Node) (nodes : list Node) :
  _getNodesFromTree_visit parent' k node nodes =
  let nodes1 :=
    (nodes ++ [flatRecord k node (JS.or_string (parent node) parent')])%list in
  match children node with
  | Some cs => _getNodesFromTree cs (Some k) nodes1
  | None => nodes1
  end.
Proof. destruct node; reflexivity. Qed.

(** A loop whose callback appends to the state what a function of the
    entry gives appends the whole of it, entry after entry. *)
Lemma forEach_append {A S B : Type} (o : JS.object A)
  (body : string -> A -> S -> S) (out : string -> A -> list B)
  (add : S -> list B -> S) :
  (forall s, add s [] = s) ->
  (forall s l1 l2, add (add s l1) l2 = add s (l1 ++ l2)%list) ->
  Forall (fun kv => forall s, body (fst kv) (snd kv) s = add s (out (fst kv) (snd kv))) o ->
  forall s,
    JS.forEach o body s = add s (flat_map (fun kv => out (fst kv) (snd kv)) o).
Proof.
  intros Hnil Happ Hall. unfold JS.forEach.
  induction Hall as [|kv o Hkv Hall IH]; intros s; simpl.
  - now rewrite Hnil.
  - now rewrite Hkv, IH, Happ.
Qed.

Lemma walked_nil (nodeId : string) (st : walk) : walked nodeId st [] = st.
Proof.
  destruct st as [f v]. unfold walked; simpl.
  now rewrite orb_false_r, app_nil_r.
Qed.

Lemma walked_app (nodeId : string) (st : walk) (l1 l2 : list string) :
  walked nodeId (walked nodeId st l1) l2 = walked nodeId st (l1 ++ l2).
Proof.
  unfold walked; simpl. now rewrite existsb_app, orb_assoc, app_assoc.
Qed.

Lemma keysOf_flat_map {A : Type} (f : A -> list (option string * string * Node))
  (xs : list A) :
  keysOf (flat_map f xs) = flat_map (fun x => keysOf (f x)) xs.
Proof.
  unfold keysOf. induction xs as [|x xs IH]; simpl; [reflexivity|].
  now rewrite map_app, IH.
Qed.

(** The callback of [_isNodeInTree] reads the key it is given and every
    key below it, in pre-order, whether the flag is set or not. *)
Lemma _isNodeInTree_visit_walked (nodeId : string) (node : Node) :
  forall sp k st,
    _isNodeInTree_visit nodeId k node st =
    walked nodeId st (keysOf (nodePreorder sp k node)).
Proof.
  induction node as [node IH] using Node_children_ind. intros sp k st.
  rewrite _isNodeInTree_visit_eq, nodePreorder_eq. cbv zeta.
  assert (Hst1 : mkWalk (if String.eqb nodeId k then true else nodeInTree st)
                        (visited st ++ [k]) = walked nodeId st [k]).
  { unfold walked; simpl. rewrite orb_false_r.
    destruct (String.eqb nodeId k); [now rewrite orb_true_r | now rewrite orb_false_r]. }
  rewrite Hst1.
  destruct (children node) as [cs|] eqn:Hcs; [|reflexivity].
  specialize (IH cs eq_refl).
  unfold _isNodeInTree.
  rewrite (forEach_append cs (_isNodeInTree_visit nodeId)
             (fun k' c => keysOf (nodePreorder (Some k) k' c)) (walked nodeId)).
  - rewrite walked_app. unfold preorder.
    now rewrite <- (keysOf_flat_map (fun kv => nodePreorder (Some k) (fst kv) (snd kv)) cs).
  - apply walked_nil.
  - apply walked_app.
  - eapply Forall_impl; [|exact IH]. intros [k' c] Hc s. simpl. apply Hc.
Qed.

Lemma _isNodeInTree_walked (nodeId : string) (tree : Tree) (sp : option string)
  (st : walk) :
  _isNodeInTree nodeId tree st = walked nodeId st (keysOf (preorder sp tree)).
Proof.
  unfold _isNodeInTree.
  rewrite (forEach_append tree (_isNodeInTree_visit nodeId)
             (fun k' c => keysOf (nodePreorder sp k' c)) (walked nodeId)).
  - unfold preorder. now rewrite keysOf_flat_map.
  - apply walked_nil.
  - apply walked_app.
  - apply Forall_forall. intros [k c] _ s. apply _isNodeInTree_visit_walked.
Qed.

(** The counterexample to C5: looking for [a] in [treeAB], the flag is
    set at the key [a], and the walk still descends to [b]. *)
Lemma isNodeInTree_descends_after_match :
  isNodeInTree_visits "a" treeAB <> isNodeInTree_visits_stopping "a" treeAB.
Proof. discriminate. Qed.

(** C5, amended: [isNodeInTree] returns true exactly when some key of
    the recursive tree is [nodeId], and its walk is the whole depth-first
    pre-order of the keys, whatever [nodeId] is: nothing is skipped once
    the flag is set; with the two values the specification lists. *)
Theorem isNodeInTree_spec :
  (forall (nodeId : string) (tree : Tree),
      (isNodeInTree nodeId tree = true <-> In nodeId (treeKeys tree)) /\
      isNodeInTree_visits nodeId tree = treeKeys tree) /\
  isNodeInTree "b" treeAB = true /\
  isNodeInTree "c" treeAB = false /\
  isNodeInTree_visits "a" treeAB = ["a"; "b"].
Proof.
  split; [|repeat split].
  intros nodeId tree. unfold isNodeInTree, isNodeInTree_visits.
  rewrite (_isNodeInTree_walked nodeId tree None). unfold walked; simpl.
  fold (treeKeys tree). split; [|reflexivity].
  rewrite existsb_exists. split.
  - intros (k & Hin & Heq). apply String.eqb_eq in Heq. now subst.
  - intros Hin. exists nodeId. split; [exact Hin | apply String.eqb_refl].
Qed.

Lemma map_flat_map {A B C : Type} (g : B -> C) (f : A -> list B) (xs : list A) :
  map g (flat_map f xs) = flat_map (fun x => map g (f x)) xs.
Proof.
  induction xs as [|x xs IH]; simpl; [reflexivity|].
  now rewrite map_app, IH.
Qed.

Lemma _getNodesFromTree_visit_records (node : Node) :
  forall sp k nodes,
    _getNodesFromTree_visit sp k node nodes =
    (nodes ++ map recordOf (nodePreorder sp k node))%list.
Proof.
  induction node as [node IH] using Node_children_ind. intros sp k nodes.
  rewrite _getNodesFromTree_visit_eq, nodePreorder_eq. cbv zeta.
  destruct (children node) as [cs|] eqn:Hcs; [|reflexivity].
  specialize (IH cs eq_refl).
  unfold _getNodesFromTree.
  rewrite (forEach_append cs (_getNodesFromTree_visit (Some k))
             (fun k' c => map recordOf (nodePreorder (Some k) k' c))
             (fun s l => (s ++ l)%list)).
  - rewrite <- app_assoc. simpl. unfold preorder.
    now rewrite (map_flat_map recordOf (fun kv => nodePreorder (Some k) (fst kv) (snd kv)) cs).
  - intros s. apply app_nil_r.
  - intros s l1 l2. now rewrite app_assoc.
  - eapply Forall_impl; [|exact IH]. intros [k' c] Hc s. simpl. apply Hc.
Qed.

Lemma _getNodesFromTree_records (tree : Tree) (sp : option string)
  (nodes : list Node) :
  _getNodesFromTree tree sp nodes = (nodes ++ map recordOf (preorder sp tree))%list.
Proof.
  unfold _getNodesFromTree.
  rewrite (forEach_append tree (_getNodesFromTree_visit sp)
             (fun k' c => map recordOf (nodePreorder sp k' c))
             (fun s l => (s ++ l)%list)).
  - unfold preorder.
    now rewrite (map_flat_map recordOf (fun kv => nodePreorder sp (fst kv) (snd kv)) tree).
  - intros s. apply app_nil_r.
  - intros s l1 l2. now rewrite app_assoc.
  - apply Forall_forall. intros [k c] _ s. apply _getNodesFromTree_visit_records.
Qed.

(** The counterexample to C4: the own [parent] of [b] is present, and
    its record has the structural parent [a] instead: [""] is falsy. *)
Lemma getNodesFromTree_empty_parent :
  getNodesFromTree treeEmptyParent <> getNodesFromTree_asStated treeEmptyParent.
Proof. discriminate. Qed.

(** C4, amended: [getNodesFromTree] gives one record per node, in
    depth-first pre-order; a record copies the fields of its node, has
    the key of the node as [id], no [children], and as [parent] the
    node's own [parent] when that is a non-empty string and the key of
    the structural parent otherwise ([undefined] at the root); with the
    value the specification lists. *)
Theorem getNodesFromTree_spec :
  (forall tree : Tree,
      getNodesFromTree tree = map recordOf (preorder None tree)) /\
  (forall (sp : option string) (k : string) (node : Node),
      let r := recordOf (sp, k, node) in
      id r = Some k /\
      children r = None /\
      index r = index node /\
      indexRange r = indexRange node /\
      selectAction r = selectAction node /\
      isFocusable r = isFocusable node /\
      isWrapping r = isWrapping node /\
      orientation r = orientation node /\
      isIndexAlign r = isIndexAlign node /\
      onLeave r = onLeave node /\
      onEnter r = onEnter node /\
      activeChild r = activeChild node /\
      (forall p, parent node = Some p -> p <> "" -> parent r = Some p) /\
      (parent node = None \/ parent node = Some "" -> parent r = sp)) /\
  getNodesFromTree treeIndexed =
  [ mkNode (Some "a") None (Some 0) None JS.VUndefined None None None None None
           None None None;
    mkNode (Some "b") (Some "a") (Some 0) None JS.VUndefined None None None None
           None None None None ].
Proof.
  split; [|split; [|reflexivity]].
  - intros tree. unfold getNodesFromTree.
    now rewrite (_getNodesFromTree_records tree None []).
  - intros sp k node. simpl. repeat split.
    + intros p Hp Hne. unfold JS.or_string. rewrite Hp. simpl.
      apply String.eqb_neq in Hne. now rewrite Hne.
    + intros [Hp | Hp]; unfold JS.or_string; now rewrite Hp.
Qed.

(** ** Further properties of the nearest-value resolver *)

Lemma fold_nearer_undefined (goal : Z) (vs : list (option Z)) :
  fold_left (nearer goal) vs None = None.
Proof.
  induction vs as [|c vs IH]; simpl; [reflexivity|].
  replace (nearer goal None c) with (@None Z); [exact IH|].
  unfold nearer. simpl. now destruct (JS.abs_sub c goal).
Qed.

Lemma fold_nearer_skips_undefined (goal : Z) (vs : list (option Z)) :
  forall x,
    fold_left (nearer goal) vs (Some x) =
    fold_left (nearer goal) (filter isNumber vs) (Some x).
Proof.
  induction vs as [|c vs IH]; intros x; [reflexivity|].
  destruct c as [c|]; cbn [fold_left filter isNumber].
  - rewrite nearer_numbers. apply IH.
  - change (nearer goal (Some x) None) with (Some x). apply IH.
Qed.

Lemma fold_nearer_number (goal : Z) (vs : list (option Z)) :
  forall x, exists r, fold_left (nearer goal) vs (Some x) = Some r.
Proof.
  induction vs as [|c vs IH]; intros x; cbn [fold_left]; [eauto|].
  destruct c as [c|].
  - rewrite nearer_numbers. apply IH.
  - change (nearer goal (Some x) None) with (Some x). apply IH.
Qed.

(** X1: an [undefined] element decides the result of [Closest] only in
    the first place: there it is the result, whatever follows; anywhere
    else it is skipped, and the result is a number. *)
Theorem Closest_undefined_only_first :
  forall (vs : list (option Z)) (goal : Z),
    Closest (None :: vs) goal = JS.Ok None /\
    (forall x,
        Closest (Some x :: vs) goal = Closest (Some x :: filter isNumber vs) goal /\
        exists r, Closest (Some x :: vs) goal = JS.Ok (Some r)).
Proof.
  intros vs goal. unfold Closest; simpl. split.
  - now rewrite fold_nearer_undefined.
  - intros x. split.
    + now rewrite fold_nearer_skips_undefined.
    + destruct (fold_nearer_number goal vs x) as [r ->]. eauto.
Qed.

Section Float64Facts.

Lemma log2_large (a : Z) : 2 ^ 53 <= a -> 53 <= Z.log2 a.
Proof.
  intros H. apply Z.log2_le_pow2; [|exact H].
  apply Z.lt_le_trans with (2 ^ 53); [reflexivity | exact H].
Qed.

(** The mantissa kept by the rounding is at least 1, so what is rounded
    is not rounded to zero. *)
Lemma float64_zero (z : Z) : JS.float64 z = 0 -> z = 0.
Proof.
  unfold JS.float64. cbv zeta.
  destruct (Z.ltb_spec (Z.abs z) (2 ^ 53)) as [_ | Hbig]; [auto|].
  intros H. exfalso.
  pose proof (log2_large _ Hbig) as Hlog.
  set (e := Z.log2 (Z.abs z) - 52) in *.
  assert (He : 0 <= e) by (unfold e; lia).
  assert (Hpow : 0 < 2 ^ e) by (apply Z.pow_pos_nonneg; lia).
  assert (Hle : 2 ^ e <= Z.abs z).
  { apply Z.le_trans with (2 ^ Z.log2 (Z.abs z)).
    - apply Z.pow_le_mono_r; unfold e; lia.
    - apply Z.log2_spec. apply Z.lt_le_trans with (2 ^ 53); [reflexivity | exact Hbig]. }
  assert (Hq : 0 < Z.abs z / 2 ^ e) by (apply Z.div_str_pos; lia).
  set (q := Z.abs z / 2 ^ e) in *.
  set (q' := if Z.abs z mod 2 ^ e <? 2 ^ (e - 1) then q
             else if 2 ^ (e - 1) <? Z.abs z mod 2 ^ e then q + 1
                  else if Z.even q then q else q + 1) in *.
  assert (Hq' : 0 < q').
  { unfold q'. destruct (_ <? _); [lia|]. destruct (_ <? _); [lia|].
    destruct (Z.even q); lia. }
  assert (Hbound : 0 < 2 ^ 1024) by (apply Z.pow_pos_nonneg; lia).
  assert (Hmin : 0 < Z.min (q' * 2 ^ e) (2 ^ 1024)).
  { apply Z.min_glb_lt; [apply Z.mul_pos_pos; assumption | exact Hbound]. }
  apply Z.mul_eq_0 in H as [H | H]; [|lia].
  apply (proj1 (Z.sgn_null_iff z)) in H. rewrite H in Hbig.
  apply Z.lt_irrefl with 0. apply Z.lt_le_trans with (2 ^ 53); [reflexivity | exact Hbig].
Qed.

(** Integers up to [2^53] are not rounded. *)
Lemma float64_exact (z : Z) : Z.abs z <= 2 ^ 53 -> JS.float64 z = z.
Proof.
  intros H. unfold JS.float64. cbv zeta.
  destruct (Z.ltb_spec (Z.abs z) (2 ^ 53)) as [_ | Hbig]; [reflexivity|].
  assert (Ha : Z.abs z = 2 ^ 53) by (apply Z.le_antisymm; assumption).
  rewrite Ha.
  destruct (Z.abs_eq_or_opp z) as [E | E]; rewrite E in Ha; 
    [rewrite Ha | replace z with (- 2 ^ 53) by (rewrite <- Ha; apply Z.opp_involutive)];
    vm_compute; reflexivity.
Qed.

End Float64Facts.

(** X2: a goal that is one of the values is the result. *)
Theorem Closest_exact (values : list Z) (goal : Z) :
  In goal values ->
  Closest (map Some values) goal = JS.Ok (Some goal).
Proof.
  intros Hin.
  destruct (Closest_split values goal) as (r & pre & post & E & S & A & B).
  { intros ->. destruct Hin. }
  rewrite E. do 2 f_equal.
  assert (H0 : distance goal goal = 0)
    by (unfold distance; rewrite Z.sub_diag; reflexivity).
  assert (Hnn : 0 <= distance goal r) by (unfold distance; apply Z.abs_nonneg).
  rewrite S in Hin. apply in_app_or in Hin as [Hin | [Hin | Hin]].
  - specialize (A goal Hin). lia.
  - exact Hin.
  - specialize (B goal Hin).
    assert (Hr : distance goal r = 0) by lia.
    unfold distance in Hr. apply (proj1 (Z.abs_0_iff _)) in Hr.
    apply float64_zero in Hr. lia.
Qed.

Lemma Closest_exact_witness :
  Closest (map Some [1; 5; 10]) 5 = JS.Ok (Some 5).
Proof.
  apply (Closest_exact [1; 5; 10] 5). simpl. auto.
Defined.

Lemma nearer_assoc (goal a b c : Z) :
  nearer goal (nearer goal (Some a) (Some b)) (Some c) =
  nearer goal (Some a) (nearer goal (Some b) (Some c)).
Proof.
  rewrite (nearer_numbers goal a b), (nearer_numbers goal b c).
  destruct (Z.ltb_spec (distance goal b) (distance goal a));
    destruct (Z.ltb_spec (distance goal c) (distance goal b));
    rewrite !nearer_numbers;
    repeat match goal with
           | |- context [?x <? ?y] => destruct (Z.ltb_spec x y)
           end; first [reflexivity | exfalso; lia].
Qed.

Lemma fold_nearer_assoc (goal : Z) (ys : list Z) :
  forall a y,
    fold_left (nearer goal) (map Some ys) (nearer goal (Some a) (Some y)) =
    nearer goal (Some a) (fold_left (nearer goal) (map Some ys) (Some y)).
Proof.
  induction ys as [|c ys IH]; intros a y; simpl; [reflexivity|].
  rewrite nearer_assoc. rewrite (nearer_numbers goal y c).
  destruct (distance goal c <? distance goal y); apply IH.
Qed.

(** X3: [Closest] of two sequences of integers put end to end is the
    nearer of the two results, the first one on a tie, where the
    distance is what binary64 computes: it is [Closest] of the two
    results. *)
Theorem Closest_concat (x y : Z) (xs ys : list Z) (goal : Z) :
  exists a b,
    Closest (map Some (x :: xs)) goal = JS.Ok (Some a) /\
    Closest (map Some (y :: ys)) goal = JS.Ok (Some b) /\
    Closest (map Some ((x :: xs) ++ y :: ys)) goal = Closest [Some a; Some b] goal /\
    Closest (map Some ((x :: xs) ++ y :: ys)) goal =
    JS.Ok (Some (if distance goal b <? distance goal a then b else a)).
Proof.
  unfold Closest; simpl.
  destruct (fold_nearer_number goal (map Some xs) x) as [a Ha].
  destruct (fold_nearer_number goal (map Some ys) y) as [b Hb].
  exists a, b. rewrite Ha, Hb. repeat split.
  - rewrite map_app, fold_left_app, Ha. simpl.
    now rewrite fold_nearer_assoc, Hb.
  - rewrite map_app, fold_left_app, Ha. simpl.
    rewrite fold_nearer_assoc, Hb. now rewrite nearer_numbers.
Qed.

(** ** Further properties of the index resolver *)

Section FirstMatch.

Context {A : Type}.
Variable p : string * A -> bool.

Lemma find_first (xs : list (string * A)) (x : string * A) :
  List.find p xs = Some x <->
  exists pre post,
    xs = (pre ++ x :: post)%list /\ p x = true /\
    forall y, In y pre -> p y = false.
Proof.
  split.
  - induction xs as [|y xs IH]; simpl; [discriminate|].
    destruct (p y) eqn:Hy.
    + intros [= ->]. exists [], xs. repeat split; [exact Hy | intros ? []].
    + intros H. destruct (IH H) as (pre & post & -> & Hx & Hpre).
      exists (y :: pre), post. repeat split; [exact Hx|].
      intros z [<- | Hz]; auto.
  - intros (pre & post & -> & Hx & Hpre).
    induction pre as [|y pre IH]; simpl.
    + now rewrite Hx.
    + rewrite (Hpre y (or_introl eq_refl)). apply IH.
      intros z Hz. apply Hpre. now right.
Qed.

Lemma find_nothing (xs : list (string * A)) :
  List.find p xs = None <-> forall y, In y xs -> p y = false.
Proof.
  split.
  - intros H y. now apply find_none.
  - intros H. destruct (List.find p xs) as [x|] eqn:E; [|reflexivity].
    apply find_some in E as [Hin Hx]. rewrite (H x Hin) in Hx. discriminate.
Qed.

(** An entry is read back through its key when keys are distinct. *)
Lemma get_of_entry (o : JS.object A) (k : string) (v : A) :
  NoDup (JS.keys o) -> In (k, v) o -> JS.get o k = Some v.
Proof.
  induction o as [|[k' v'] o IH]; simpl; [easy|].
  intros Hnd Hin. inversion Hnd as [|? ? Hnotin Hnd']; subst.
  destruct Hin as [[= -> ->] | Hin].
  - now rewrite String.eqb_refl.
  - destruct (String.eqb_spec k' k) as [-> | _]; [|auto].
    exfalso. apply Hnotin. apply in_map_iff. exists (k, v). auto.
Qed.

(** The search both [_findChildWith...] functions make: the key of the
    first entry that passes the test, then the entry under that key if
    the key is truthy.  With distinct and non-empty keys this is the
    first entry that passes the test. *)
Lemma find_then_get (o : JS.object A) :
  NoDup (JS.keys o) -> ~ In "" (JS.keys o) ->
  (let key := option_map fst (JS.find p o) in
   if JS.truthy_string key then JS.get o (JS.to_string key) else None) =
  option_map snd (List.find p o).
Proof.
  intros Hnd Hne. unfold JS.find. cbv zeta.
  destruct (List.find p o) as [[k v]|] eqn:E; simpl; [|reflexivity].
  apply find_some in E as [Hin _].
  destruct (String.eqb_spec k "") as [-> | _]; simpl.
  - exfalso. apply Hne. apply in_map_iff. exists ("", v). auto.
  - now apply get_of_entry.
Qed.

End FirstMatch.

Lemma strict_eq_iff (a b : option Z) : JS.strict_eq a b = true <-> a = b.
Proof.
  destruct a as [a|], b as [b|]; simpl; try (split; congruence).
  rewrite Z.eqb_eq. split; congruence.
Qed.

Lemma strict_eq_false_iff (a b : option Z) : JS.strict_eq a b = false <-> a <> b.
Proof.
  rewrite <- strict_eq_iff. destruct (JS.strict_eq a b); split; congruence.
Qed.

Lemma _findChildWithIndex_find (node : Node) (cs : JS.object Node) (v : option Z) :
  children node = Some cs -> NoDup (JS.keys cs) -> ~ In "" (JS.keys cs) ->
  _findChildWithIndex node v =
  option_map snd (List.find (fun '(_, ch) => JS.strict_eq (index ch) v) cs).
Proof.
  intros Hcs Hnd Hne. unfold _findChildWithIndex. rewrite Hcs.
  apply (find_then_get (fun '(_, ch) => JS.strict_eq (index ch) v) cs Hnd Hne).
Qed.

(** X4: when the ids of the children are distinct and none is the empty
    string, [_findChildWithIndex] returns the first child, in key order,
    whose index is the index asked for, and [null] exactly when no child
    has that index. *)
Theorem _findChildWithIndex_first_match (node : Node) (cs : JS.object Node)
  (v : option Z) :
  children node = Some cs ->
  NoDup (JS.keys cs) ->
  ~ In "" (JS.keys cs) ->
  (forall c,
      _findChildWithIndex node v = Some c <->
      exists k pre post,
        cs = (pre ++ (k, c) :: post)%list /\ index c = v /\
        forall k' c', In (k', c') pre -> index c' <> v) /\
  (_findChildWithIndex node v = None <->
   forall k c, In (k, c) cs -> index c <> v).
Proof.
  intros Hcs Hnd Hne.
  rewrite (_findChildWithIndex_find node cs v Hcs Hnd Hne).
  set (p := fun '(_, ch) => JS.strict_eq (index ch) v : bool).
  split.
  - intros c. split.
    + destruct (List.find p cs) as [[k c0]|] eqn:E; simpl; [|discriminate].
      intros [= ->]. apply find_first in E as (pre & post & -> & Hx & Hpre).
      exists k, pre, post. repeat split.
      * now apply strict_eq_iff.
      * intros k' c' Hin. apply strict_eq_false_iff. apply (Hpre (k', c') Hin).
    + intros (k & pre & post & -> & Hx & Hpre).
      assert (E : List.find p (pre ++ (k, c) :: post) = Some (k, c)).
      { apply find_first. exists pre, post. repeat split.
        - now apply strict_eq_iff.
        - intros [k' c'] Hin. apply strict_eq_false_iff. eauto. }
      now rewrite E.
  - destruct (List.find p cs) as [[k c0]|] eqn:E; simpl.
    + split; [discriminate|]. intros H. exfalso.
      apply find_some in E as [Hin Hx]. apply strict_eq_iff in Hx.
      exact (H k c0 Hin Hx).
    + split; [|reflexivity]. intros _ k c Hin.
      apply strict_eq_false_iff. apply (proj1 (find_nothing p cs) E (k, c) Hin).
Qed.

Lemma _findChildWithIndex_first_match_witness :
  (forall c,
      _findChildWithIndex sharedIndex (Some 1) = Some c <->
      exists k pre post,
        [("x", indexed 1); ("y", selectable 1 7)] = (pre ++ (k, c) :: post)%list /\
        index c = Some 1 /\
        forall k' c', In (k', c') pre -> index c' <> Some 1) /\
  (_findChildWithIndex sharedIndex (Some 1) = None <->
   forall k c, In (k, c) [("x", indexed 1); ("y", selectable 1 7)] ->
               index c <> Some 1).
Proof.
  apply (_findChildWithIndex_first_match sharedIndex
           [("x", indexed 1); ("y", selectable 1 7)] (Some 1)).
  - reflexivity.
  - repeat constructor; simpl; intuition discriminate.
  - simpl; intuition discriminate.
Defined.

Lemma spansIndex_iff (child : Node) (i : Z) :
  spansIndex child i = true <->
  exists lo hi rest,
    indexRange child = Some (lo :: hi :: rest) /\ lo <= i <= hi.
Proof.
  unfold spansIndex. destruct (indexRange child) as [r|].
  - destruct r as [|lo [|hi rest]]; simpl.
    + split; [discriminate | intros (? & ? & ? & [=] & _)].
    + rewrite andb_false_r. split; [discriminate | intros (? & ? & ? & [=] & _)].
    + rewrite andb_true_iff, Z.leb_le, Z.geb_le. split.
      * intros H. exists lo, hi, rest. auto.
      * intros (? & ? & ? & [= <- <- <-] & H). exact H.
  - split; [discriminate | intros (? & ? & ? & [=] & _)].
Qed.

(** X5: [_findChildWithMatchingIndexRange] returns [null] exactly when
    the node has no children.  When the ids of the children are distinct
    and none is the empty string, it returns the first child, in key
    order, whose [indexRange] starts with two bounds that enclose the
    index, and [undefined] exactly when no child has such a range. *)
Theorem _findChildWithMatchingIndexRange_first_match (node : Node) (i : Z) :
  (_findChildWithMatchingIndexRange node i = JS.Null <-> children node = None) /\
  (forall cs,
      children node = Some cs -> NoDup (JS.keys cs) -> ~ In "" (JS.keys cs) ->
      (forall c,
          _findChildWithMatchingIndexRange node i = JS.Value c <->
          exists k pre post,
            cs = (pre ++ (k, c) :: post)%list /\
            (exists lo hi rest,
                indexRange c = Some (lo :: hi :: rest) /\ lo <= i <= hi) /\
            forall k' c', In (k', c') pre -> spansIndex c' i = false) /\
      (_findChildWithMatchingIndexRange node i = JS.Undefined <->
       forall k c, In (k, c) cs -> spansIndex c i = false)).
Proof.
  unfold _findChildWithMatchingIndexRange. split.
  - destruct (children node) as [cs|]; [|split; reflexivity].
    split; [|discriminate].
    destruct (JS.truthy_string _); [|discriminate].
    destruct (JS.get cs _); discriminate.
  - intros cs Hcs Hnd Hne. rewrite Hcs.
    set (p := fun '(_, ch) => spansIndex ch i : bool).
    pose proof (find_then_get p cs Hnd Hne) as Hfind. cbv zeta in Hfind.
    assert (Hres :
              (if JS.truthy_string (option_map fst (JS.find p cs))
               then match JS.get cs (JS.to_string (option_map fst (JS.find p cs))) with
                    | Some child => JS.Value child
                    | None => JS.Undefined
                    end
               else JS.Undefined) =
              match List.find p cs with
              | Some (_, c) => JS.Value c
              | None => JS.Undefined
              end).
    { destruct (JS.truthy_string (option_map fst (JS.find p cs)));
        [rewrite Hfind|]; destruct (List.find p cs) as [[k c]|];
        try reflexivity; discriminate Hfind. }
    fold p. rewrite Hres. clear Hres Hfind. split.
    + intros c. split.
      * destruct (List.find p cs) as [[k c0]|] eqn:E; [|discriminate].
        intros [= ->]. apply find_first in E as (pre & post & -> & Hx & Hpre).
        exists k, pre, post. repeat split.
        -- now apply spansIndex_iff.
        -- intros k' c' Hin. apply (Hpre (k', c') Hin).
      * intros (k & pre & post & -> & Hx & Hpre).
        assert (E : List.find p (pre ++ (k, c) :: post) = Some (k, c)).
        { apply find_first. exists pre, post. repeat split.
          - now apply spansIndex_iff.
          - intros [k' c'] Hin. simpl. eauto. }
        now rewrite E.
    + destruct (List.find p cs) as [[k c0]|] eqn:E.
      * split; [discriminate|]. intros H. exfalso.
        apply find_some in E as [Hin Hx]. simpl in Hx.
        rewrite (H k c0 Hin) in Hx. discriminate.
      * split; [|reflexivity]. intros _ k c Hin.
        apply (proj1 (find_nothing p cs) E (k, c) Hin).
Qed.

Lemma _findChildWithMatchingIndexRange_first_match_witness :
  _findChildWithMatchingIndexRange twoRows 4 = JS.Value (ranged 1 3 5).
Proof.
  apply (proj2 (_findChildWithMatchingIndexRange_first_match twoRows 4)
               [("row1", ranged 0 0 2); ("row2", ranged 1 3 5)]).
  - reflexivity.
  - repeat constructor; simpl; intuition discriminate.
  - simpl; intuition discriminate.
  - exists "row2", [("row1", ranged 0 0 2)], []. split; [reflexivity|]. split.
    + exists 3, 5, []. split; [reflexivity|]. split; discriminate.
    + intros k' c' [[= <- <-] | []]. reflexivity.
Defined.

(** X6: whatever [_findChildWithClosestIndex] returns is one of the
    children of the node. *)
Theorem _findChildWithClosestIndex_is_child (node : Node) (index' : Z)
  (indexRange' : option (list Z)) (c : Node) :
  _findChildWithClosestIndex node index' indexRange' = JS.Ok (Some c) ->
  exists cs k, children node = Some cs /\ In (k, c) cs.
Proof.
  unfold _findChildWithClosestIndex.
  destruct (children node) as [cs|] eqn:Hcs; [|discriminate].
  destruct (activeChildInRange _ _).
  - intros [= H]. exists cs, (JS.to_string (activeChild node)).
    split; [reflexivity|]. now apply get_some_in.
  - destruct (Z.of_nat (List.length (candidateIndexes cs)) <=? 0); [discriminate|].
    destruct (Closest (candidateIndexes cs) index') as [v|e]; simpl; [|discriminate].
    intros [= H]. unfold _findChildWithIndex in H. rewrite Hcs in H.
    destruct (JS.truthy_string _); [|discriminate].
    exists cs. eexists. split; [reflexivity|]. apply get_some_in. exact H.
Qed.

Lemma _findChildWithClosestIndex_is_child_witness :
  exists cs k, children twoSelectable = Some cs /\ In (k, selectable 0 1) cs.
Proof.
  apply (_findChildWithClosestIndex_is_child twoSelectable 0 None (selectable 0 1)).
  reflexivity.
Defined.

(** X7: an [indexRange] never narrows the scan: either the result is
    the one without a range, or it is the active child, which then is
    focusable and has its index within the range. *)
Theorem indexRange_only_shortcuts (node : Node) (index' : Z) (r : list Z) :
  _findChildWithClosestIndex node index' (Some r) =
  _findChildWithClosestIndex node index' None \/
  exists cs ac,
    children node = Some cs /\
    JS.get cs (JS.to_string (activeChild node)) = Some ac /\
    _findChildWithClosestIndex node index' (Some r) = JS.Ok (Some ac) /\
    isNodeFocusable ac = true /\
    withinRange (index ac) r = true.
Proof.
  unfold _findChildWithClosestIndex.
  destruct (children node) as [cs|]; [|now left].
  destruct (JS.get cs (JS.to_string (activeChild node))) as [ac|] eqn:Hget;
    simpl; [|now left].
  destruct (withinRange (index ac) r && isNodeFocusable ac) eqn:E; [|now left].
  apply andb_true_iff in E as [Hr Hf].
  right. exists cs, ac. auto.
Qed.

Lemma candidateIndexes_numbers (cs : JS.object Node) :
  (forall k c, In (k, c) cs -> isCandidate c = true -> exists i, index c = Some i) ->
  exists zs, candidateIndexes cs = map Some zs.
Proof.
  unfold candidateIndexes.
  induction cs as [|[k c] cs IH]; intros H; simpl.
  - now exists [].
  - destruct IH as [zs Hzs]; [intros k' c' Hin; apply (H k' c'); now right|].
    destruct (isCandidate c) eqn:Hc; simpl.
    + destruct (H k c (or_introl eq_refl) Hc) as [i Hi].
      exists (i :: zs). simpl. now rewrite Hi, Hzs.
    + now exists zs.
Qed.

(** X8: when the ids of the children are distinct and none is the empty
    string, every candidate has a number as its index and the shortcut
    is not taken, the child returned has an index at minimal distance
    from the index asked for among the indices of the candidates, the
    distance being what binary64 computes; it is the exact distance
    when the index asked for and the indices of the candidates are at
    most 2^52 in magnitude. *)
Theorem _findChildWithClosestIndex_nearest (node : Node) (cs : JS.object Node)
  (index' : Z) (indexRange' : option (list Z)) :
  children node = Some cs ->
  NoDup (JS.keys cs) ->
  ~ In "" (JS.keys cs) ->
  (forall k c, In (k, c) cs -> isCandidate c = true -> exists i, index c = Some i) ->
  activeChildInRange indexRange' (JS.get cs (JS.to_string (activeChild node))) = false ->
  candidateIndexes cs <> [] ->
  exists c i,
    _findChildWithClosestIndex node index' indexRange' = JS.Ok (Some c) /\
    index c = Some i /\
    (forall k' c' i',
        In (k', c') cs -> isCandidate c' = true -> index c' = Some i' ->
        distance index' i <= distance index' i') /\
    (Z.abs index' <= 2 ^ 52 ->
     (forall k' c' i',
         In (k', c') cs -> isCandidate c' = true -> index c' = Some i' ->
         Z.abs i' <= 2 ^ 52) ->
     forall k' c' i',
       In (k', c') cs -> isCandidate c' = true -> index c' = Some i' ->
       exactDistance index' i <= exactDistance index' i').
Proof.
  intros Hcs Hnd Hne Hnum Hact Hcand.
  rewrite (_findChildWithClosestIndex_scan node cs index' indexRange' Hcs Hact).
  destruct (candidateIndexes_numbers cs Hnum) as [zs Hzs].
  destruct (Closest_split zs index') as (r & pre & post & E & S & A & B).
  { intros ->. rewrite Hzs in Hcand. now apply Hcand. }
  assert (Hmin : forall i', In (Some i') (candidateIndexes cs) ->
                            distance index' r <= distance index' i').
  { intros i' Hin. rewrite Hzs in Hin. apply in_map_iff in Hin as (z & [= ->] & Hz).
    rewrite S in Hz. apply in_app_or in Hz as [Hz | [<- | Hz]].
    - specialize (A i' Hz). lia.
    - lia.
    - now apply B. }
  assert (Hr : In (Some r) (candidateIndexes cs)).
  { rewrite Hzs, S. apply in_map. apply in_or_app. right. now left. }
  assert (Hscan :
            match candidateIndexes cs with
            | [] => JS.Ok None
            | _ :: _ =>
                closest <- Closest (candidateIndexes cs) index' ;;
                JS.Ok (_findChildWithIndex node closest)
            end = JS.Ok (_findChildWithIndex node (Some r))).
  { destruct (candidateIndexes cs) as [|v0 vs] eqn:Hci; [congruence|].
    rewrite Hzs, E. reflexivity. }
  rewrite Hscan.
  rewrite (_findChildWithIndex_find node cs (Some r) Hcs Hnd Hne).
  destruct (candidateIndexes_in cs (Some r) Hr) as (k0 & c0 & Hin0 & Hc0 & Hidx0).
  destruct (find_is_some (fun '(_, ch) => JS.strict_eq (index ch) (Some r)) cs (k0, c0) Hin0)
    as ([k c] & Hfind).
  { rewrite Hidx0. apply strict_eq_refl. }
  rewrite Hfind. simpl. exists c, r. split; [reflexivity|].
  apply find_some in Hfind as [_ Hx]. apply strict_eq_iff in Hx. split; [exact Hx|].
  assert (Hall : forall k' c' i',
             In (k', c') cs -> isCandidate c' = true -> index c' = Some i' ->
             distance index' r <= distance index' i').
  { intros k' c' i' Hin' Hc' Hi'. apply Hmin. rewrite <- Hi'.
    now apply (candidateIndexes_of cs k' c'). }
  split; [exact Hall|].
  intros Hgoal Hbound k' c' i' Hin' Hc' Hi'.
  assert (Hexact : forall v, Z.abs v <= 2 ^ 52 -> distance index' v = exactDistance index' v).
  { intros v Hv. unfold distance, exactDistance. rewrite float64_exact; [reflexivity|].
    change (2 ^ 53) with (2 ^ 52 + 2 ^ 52). lia. }
  rewrite <- (Hexact r), <- (Hexact i').
  - exact (Hall k' c' i' Hin' Hc' Hi').
  - exact (Hbound k' c' i' Hin' Hc' Hi').
  - exact (Hbound k0 c0 r Hin0 Hc0 Hidx0).
Qed.

Lemma _findChildWithClosestIndex_nearest_witness :
  exists c i,
    _findChildWithClosestIndex twoSelectable 4 None = JS.Ok (Some c) /\
    index c = Some i /\
    (forall k' c' i',
        In (k', c') [("x", selectable 0 1); ("y", selectable 5 2)] ->
        isCandidate c' = true -> index c' = Some i' ->
        distance 4 i <= distance 4 i') /\
    (Z.abs 4 <= 2 ^ 52 ->
     (forall k' c' i',
         In (k', c') [("x", selectable 0 1); ("y", selectable 5 2)] ->
         isCandidate c' = true -> index c' = Some i' ->
         Z.abs i' <= 2 ^ 52) ->
     forall k' c' i',
       In (k', c') [("x", selectable 0 1); ("y", selectable 5 2)] ->
       isCandidate c' = true -> index c' = Some i' ->
       exactDistance 4 i <= exactDistance 4 i').
Proof.
  apply (_findChildWithClosestIndex_nearest twoSelectable
           [("x", selectable 0 1); ("y", selectable 5 2)] 4 None).
  - reflexivity.
  - repeat constructor; simpl; intuition discriminate.
  - simpl; intuition discriminate.
  - intros k c [[= <- <-] | [[= <- <-] | []]] _; simpl; eauto.
  - reflexivity.
  - discriminate.
Defined.

(** ** Directions and key codes *)

Lemma upperAscii_idempotent (c : ascii) : upperAscii (upperAscii c) = upperAscii c.
Proof. destruct c as [[] [] [] [] [] [] [] []]; reflexivity. Qed.

Lemma toUpperCaseAscii_idempotent (s : string) :
  toUpperCaseAscii (toUpperCaseAscii s) = toUpperCaseAscii s.
Proof.
  induction s as [|c s IH]; simpl; [reflexivity|].
  now rewrite upperAscii_idempotent, IH.
Qed.

Lemma toUpperCaseAscii_empty (s : string) : toUpperCaseAscii s = "" <-> s = "".
Proof. destruct s; simpl; split; congruence. Qed.

Section DirectionFacts.

Variable toUpperCase : string -> string.
Variable codes : Z -> option string.

(** What a match with a direction that is not the wildcard says. *)
Lemma matching_axis (orientation direction : option string) :
  isDirectionAndOrientationMatching toUpperCase orientation direction = true ->
  toUpperCase (JS.to_string direction) <> "*" ->
  (toUpperCase (JS.to_string orientation) = "VERTICAL" /\
   (toUpperCase (JS.to_string direction) = "UP" \/
    toUpperCase (JS.to_string direction) = "DOWN")) \/
  (toUpperCase (JS.to_string orientation) = "HORIZONTAL" /\
   (toUpperCase (JS.to_string direction) = "LEFT" \/
    toUpperCase (JS.to_string direction) = "RIGHT")).
Proof.
  unfold isDirectionAndOrientationMatching.
  destruct (negb (JS.truthy_string orientation) || negb (JS.truthy_string direction));
    [discriminate|].
  cbv zeta. intros H Hd. apply String.eqb_neq in Hd. rewrite Hd in H.
  rewrite orb_false_l in H.
  apply orb_true_iff in H as [H | H];
    apply andb_true_iff in H as [Ho H];
    apply String.eqb_eq in Ho;
    apply orb_true_iff in H as [H | H];
    apply String.eqb_eq in H; auto.
Qed.

(** X9: the wildcard direction matches every orientation that is not
    empty or absent, and only those. *)
Theorem wildcard_matches_nonempty (orientation : option string) :
  toUpperCase "*" = "*" ->
  isDirectionAndOrientationMatching toUpperCase orientation (Some "*") =
  JS.truthy_string orientation.
Proof.
  intros Hstar. unfold isDirectionAndOrientationMatching.
  destruct (JS.truthy_string orientation); simpl; [|reflexivity].
  now rewrite Hstar.
Qed.

(** X10: a direction that is not the wildcard matches orientations of
    one axis only: two orientations it matches are equal once in upper
    case. *)
Theorem direction_matches_one_axis (o1 o2 direction : option string) :
  isDirectionAndOrientationMatching toUpperCase o1 direction = true ->
  isDirectionAndOrientationMatching toUpperCase o2 direction = true ->
  toUpperCase (JS.to_string direction) <> "*" ->
  toUpperCase (JS.to_string o1) = toUpperCase (JS.to_string o2).
Proof.
  intros H1 H2 Hd.
  destruct (matching_axis o1 direction H1 Hd) as [[E1 D1] | [E1 D1]];
    destruct (matching_axis o2 direction H2 Hd) as [[E2 D2] | [E2 D2]];
    try congruence;
    exfalso; destruct D1 as [D1 | D1]; destruct D2 as [D2 | D2];
    rewrite D1 in D2; discriminate.
Qed.

Hypothesis toUpperCase_idempotent :
  forall s, toUpperCase (toUpperCase s) = toUpperCase s.

(** X11: matching does not depend on the case of its arguments. *)
Theorem matching_ignores_case (orientation direction : string) :
  (forall s, toUpperCase s = "" <-> s = "") ->
  isDirectionAndOrientationMatching toUpperCase (Some orientation) (Some direction) =
  isDirectionAndOrientationMatching toUpperCase
    (Some (toUpperCase orientation)) (Some (toUpperCase direction)).
Proof.
  intros Hempty. unfold isDirectionAndOrientationMatching. simpl.
  rewrite !toUpperCase_idempotent.
  assert (E : forall s, String.eqb (toUpperCase s) "" = String.eqb s "").
  { intros s. destruct (String.eqb_spec s "") as [-> | Hs].
    - apply String.eqb_eq. apply (proj2 (Hempty "")). reflexivity.
    - apply String.eqb_neq. intros H. apply Hs. apply (proj1 (Hempty s)). exact H. }
  now rewrite !E.
Qed.

(** X12: the direction [getDirectionForKeyCode] gives for a key code
    matches an orientation exactly when the entry of the table does; a
    key code without an entry, or with an empty one, matches nothing. *)
Theorem keyCode_direction_matches (orientation : option string) (keyCode : Z) :
  isDirectionAndOrientationMatching toUpperCase orientation
    (getDirectionForKeyCode toUpperCase codes keyCode) =
  isDirectionAndOrientationMatching toUpperCase orientation (codes keyCode) /\
  (JS.truthy_string (codes keyCode) = false ->
   getDirectionForKeyCode toUpperCase codes keyCode = None /\
   isDirectionAndOrientationMatching toUpperCase orientation
     (getDirectionForKeyCode toUpperCase codes keyCode) = false).
Proof.
  unfold getDirectionForKeyCode, isDirectionAndOrientationMatching.
  destruct (codes keyCode) as [s|]; simpl.
  - destruct (String.eqb_spec s "") as [-> | Hs]; simpl.
    + rewrite orb_true_r. auto.
    + split; [|discriminate].
      destruct (JS.truthy_string orientation); simpl; [|reflexivity].
      rewrite toUpperCase_idempotent.
      destruct (String.eqb_spec (toUpperCase s) "") as [-> | _]; simpl;
        rewrite ?andb_false_r; reflexivity.
  - rewrite orb_true_r. auto.
Qed.

End DirectionFacts.

Lemma wildcard_matches_nonempty_witness :
  isDirectionAndOrientationMatching toUpperCaseAscii (Some "horizontal") (Some "*") =
  JS.truthy_string (Some "horizontal").
Proof.
  apply (wildcard_matches_nonempty toUpperCaseAscii (Some "horizontal")).
  reflexivity.
Defined.

Lemma direction_matches_one_axis_witness :
  toUpperCaseAscii (JS.to_string (Some "vertical")) =
  toUpperCaseAscii (JS.to_string (Some "Vertical")).
Proof.
  apply (direction_matches_one_axis toUpperCaseAscii
           (Some "vertical") (Some "Vertical") (Some "up"));
    [reflexivity | reflexivity | discriminate].
Defined.

Lemma matching_ignores_case_witness :
  isDirectionAndOrientationMatching toUpperCaseAscii (Some "Horizontal") (Some "lEFT") =
  isDirectionAndOrientationMatching toUpperCaseAscii
    (Some (toUpperCaseAscii "Horizontal")) (Some (toUpperCaseAscii "lEFT")).
Proof.
  apply (matching_ignores_case toUpperCaseAscii toUpperCaseAscii_idempotent
           "Horizontal" "lEFT").
  exact toUpperCaseAscii_empty.
Defined.

Lemma keyCode_direction_matches_witness :
  isDirectionAndOrientationMatching toUpperCaseAscii (Some "vertical")
    (getDirectionForKeyCode toUpperCaseAscii arrowCodes 38) =
  isDirectionAndOrientationMatching toUpperCaseAscii (Some "vertical") (arrowCodes 38) /\
  (JS.truthy_string (arrowCodes 38) = false ->
   getDirectionForKeyCode toUpperCaseAscii arrowCodes 38 = None /\
   isDirectionAndOrientationMatching toUpperCaseAscii (Some "vertical")
     (getDirectionForKeyCode toUpperCaseAscii arrowCodes 38) = false).
Proof.
  exact (keyCode_direction_matches toUpperCaseAscii arrowCodes
           toUpperCaseAscii_idempotent (Some "vertical") 38).
Defined.

(** ** Paths and their segments *)

Section SegmentFacts.

Lemma dotFree_append (a b : string) :
  dotFree (a ++ b) = dotFree a && dotFree b.
Proof.
  induction a as [|c a IH]; simpl; [reflexivity|].
  now rewrite IH, andb_assoc.
Qed.

Lemma concat_cons (x : string) (l : list string) :
  l <> [] -> String.concat "." (x :: l) = x ++ "." ++ String.concat "." l.
Proof. destruct l; [congruence | reflexivity]. Qed.

Lemma concat_append (l1 l2 : list string) :
  l1 <> [] -> l2 <> [] ->
  String.concat "." (l1 ++ l2) =
  String.concat "." l1 ++ "." ++ String.concat "." l2.
Proof.
  intros H1 H2. induction l1 as [|x l1 IH]; [congruence|].
  destruct l1 as [|y l1].
  - simpl app. now rewrite concat_cons.
  - change ((x :: y :: l1) ++ l2)%list with (x :: (y :: l1) ++ l2)%list.
    rewrite concat_cons by discriminate.
    rewrite IH by discriminate.
    rewrite (concat_cons x (y :: l1)) by discriminate.
    now rewrite !append_assoc.
Qed.

(** A list of segments whose path has no dot is a single segment. *)
Lemma concat_dotFree (l : list string) :
  l <> [] -> dotFree (String.concat "." l) = true -> exists x, l = [x].
Proof.
  destruct l as [|x [|y l]]; [congruence | eauto |].
  intros _. rewrite concat_cons by discriminate.
  rewrite !dotFree_append. simpl. rewrite andb_false_r. discriminate.
Qed.

(** Two ways to write a string around a dot, the first with nothing
    but a segment before the dot. *)
Lemma dot_after_segment (x u h t : string) :
  dotFree x = true ->
  x ++ "." ++ u = h ++ "." ++ t ->
  (h = x /\ u = t) \/ exists h', h = x ++ "." ++ h' /\ u = h' ++ "." ++ t.
Proof.
  revert h. induction x as [|c x IH]; intros h Hx E.
  - destruct h as [|d h]; simpl in E.
    + injection E as ->. now left.
    + injection E as <- ->. right. exists h. auto.
  - simpl in Hx. apply andb_true_iff in Hx as [Hc Hx].
    destruct h as [|d h]; simpl in E.
    + injection E as -> _. discriminate Hc.
    + injection E as <- E. destruct (IH h Hx E) as [[-> ->] | (h' & -> & ->)].
      * now left.
      * right. exists h'. auto.
Qed.

(** A path of dot-free segments written around a dot splits its
    segments in two. *)
Lemma concat_split (segs : list string) :
  Forall (fun s => dotFree s = true) segs ->
  forall h t,
    String.concat "." segs = h ++ "." ++ t ->
    exists l1 l2,
      l1 <> [] /\ l2 <> [] /\ segs = (l1 ++ l2)%list /\
      String.concat "." l1 = h /\ String.concat "." l2 = t.
Proof.
  induction 1 as [|x segs Hx Hall IH]; intros h t E.
  - destruct h; discriminate.
  - destruct segs as [|y segs].
    + simpl in E. rewrite E, dotFree_append in Hx. simpl in Hx.
      rewrite andb_false_r in Hx. discriminate.
    + rewrite concat_cons in E by discriminate.
      destruct (dot_after_segment x _ h t Hx E) as [[-> Ht] | (h' & -> & Ht)].
      * exists [x], (y :: segs). repeat split; try discriminate. exact Ht.
      * destruct (IH h' t Ht) as (l1 & l2 & H1 & H2 & S & <- & <-).
        exists (x :: l1), l2. repeat split; try discriminate; try assumption.
        -- simpl. now rewrite S.
        -- now apply concat_cons.
Qed.

Lemma segments_nonempty (path : string) : segments path <> [].
Proof.
  induction path as [|c path IH]; simpl; [discriminate|].
  destruct (Ascii.eqb c "."); [discriminate|].
  destruct (segments path); [congruence | discriminate].
Qed.

(** Joining the segments of a path with dots gives the path back. *)
Lemma concat_segments (path : string) :
  String.concat "." (segments path) = path.
Proof.
  induction path as [|c path IH]; simpl; [reflexivity|].
  destruct (Ascii.eqb_spec c ".") as [-> | _].
  - rewrite concat_cons by apply segments_nonempty. simpl. now rewrite IH.
  - pose proof (segments_nonempty path) as Hne.
    destruct (segments path) as [|seg segs]; [congruence|].
    destruct segs as [|seg' segs].
    + simpl in *. now rewrite IH.
    + rewrite concat_cons by discriminate.
      rewrite concat_cons in IH by discriminate.
      rewrite <- IH. reflexivity.
Qed.

Lemma segments_dotFree (path : string) :
  Forall (fun s => dotFree s = true) (segments path).
Proof.
  induction path as [|c path IH]; simpl.
  - repeat constructor.
  - destruct (Ascii.eqb c ".") eqn:Hc.
    + constructor; [reflexivity | exact IH].
    + destruct (segments path) as [|seg segs]; [repeat constructor; simpl; now rewrite Hc|].
      inversion IH; subst. constructor; [simpl; now rewrite Hc | assumption].
Qed.

(** The three shapes [isNodeInPath] looks for, on a path of dot-free
    segments and for a dot-free id: the id is one of at least two
    segments. *)
Lemma shapes_of_segment (segs : list string) (i : string) :
  Forall (fun s => dotFree s = true) segs ->
  dotFree i = true ->
  ((exists t, String.concat "." segs = i ++ "." ++ t) \/
   (exists h, String.concat "." segs = h ++ "." ++ i) \/
   (exists h t, String.concat "." segs = h ++ "." ++ i ++ "." ++ t)) <->
  In i segs /\ (2 <= List.length segs)%nat.
Proof.
  intros Hall Hi. split.
  - assert (Hlen : forall l1 l2 : list string,
               l1 <> [] -> l2 <> [] -> (2 <= List.length (l1 ++ l2))%nat).
    { intros [|? ?] [|? ?] ? ?; try congruence. rewrite length_app. simpl. lia. }
    intros [[t E] | [[h E] | (h & t & E)]].
    + destruct (concat_split segs Hall i t E) as (l1 & l2 & H1 & H2 & -> & C1 & _).
      destruct (concat_dotFree l1 H1) as [x ->]; [now rewrite C1|].
      simpl in C1. subst x. split; [now left | now apply (Hlen [i] l2)].
    + destruct (concat_split segs Hall h i E) as (l1 & l2 & H1 & H2 & -> & _ & C2).
      destruct (concat_dotFree l2 H2) as [x ->]; [now rewrite C2|].
      simpl in C2. subst x. split; [|now apply Hlen].
      apply in_or_app. right. now left.
    + destruct (concat_split segs Hall h _ E) as (l1 & l2 & H1 & H2 & -> & _ & C2).
      apply Forall_app in Hall as [_ Hall2].
      destruct (concat_split l2 Hall2 i t C2) as (l3 & l4 & H3 & H4 & -> & C3 & _).
      destruct (concat_dotFree l3 H3) as [x ->]; [now rewrite C3|].
      simpl in C3. subst x. split; [|now apply Hlen].
      apply in_or_app. right. now left.
  - intros [Hin Hlen]. apply in_split in Hin as (l1 & l2 & ->).
    destruct l1 as [|a l1], l2 as [|b l2].
    + simpl in Hlen. lia.
    + left. exists (String.concat "." (b :: l2)).
      change ([] ++ i :: b :: l2)%list with (i :: b :: l2).
      now rewrite (concat_cons i (b :: l2)) by discriminate.
    + right; left. exists (String.concat "." (a :: l1)).
      now rewrite concat_append by discriminate.
    + right; right.
      exists (String.concat "." (a :: l1)), (String.concat "." (b :: l2)).
      rewrite concat_append by discriminate.
      now rewrite (concat_cons i (b :: l2)) by discriminate.
Qed.

End SegmentFacts.

Lemma isNodeInPath_segments (path : string) (node : Node) :
  dotFree (JS.to_string (id node)) = true ->
  isNodeInPath path node = true <->
  In (JS.to_string (id node)) (segments path) /\
  (2 <= List.length (segments path))%nat.
Proof.
  intros Hi. rewrite isNodeInPath_iff.
  rewrite <- (shapes_of_segment (segments path) _ (segments_dotFree path) Hi).
  now rewrite concat_segments.
Qed.

(** X13: for a node whose id has no dot, [isNodeInPath] is true exactly
    when the id is one of the segments of the path (the parts between
    its dots) and the path has at least two segments: part of a segment
    is never matched. *)
Theorem isNodeInPath_whole_segment (path : string) (node : Node) :
  dotFree (JS.to_string (id node)) = true ->
  isNodeInPath path node = true <->
  In (JS.to_string (id node)) (segments path) /\
  (2 <= List.length (segments path))%nat.
Proof. apply isNodeInPath_segments. Qed.

Lemma isNodeInPath_whole_segment_witness :
  isNodeInPath "root.menu.item3"
    (mkNode (Some "item") None None None JS.VUndefined None None None None None
            None None None) = true <->
  In "item" (segments "root.menu.item3") /\
  (2 <= List.length (segments "root.menu.item3"))%nat.
Proof.
  apply (isNodeInPath_whole_segment "root.menu.item3"
           (mkNode (Some "item") None None None JS.VUndefined None None None None
                   None None None None)).
  reflexivity.
Defined.

(** X14: for a node whose id has no dot, [isNodeInPaths] is true exactly
    when one of the paths has at least two segments, one of which is the
    id; on no path at all it is false. *)
Theorem isNodeInPaths_some_segment (paths : list string) (node : Node) :
  dotFree (JS.to_string (id node)) = true ->
  isNodeInPaths paths node = true <->
  exists path,
    In path paths /\
    In (JS.to_string (id node)) (segments path) /\
    (2 <= List.length (segments path))%nat.
Proof.
  intros Hi. unfold isNodeInPaths, JS.some. rewrite existsb_exists.
  split; intros (path & Hin & H); exists path; split; try assumption;
    now apply (isNodeInPath_segments path node Hi).
Qed.

Lemma isNodeInPaths_some_segment_witness :
  isNodeInPaths ["root"; "root.a.b"]
    (mkNode (Some "root") None None None JS.VUndefined None None None None None
            None None None) = true <->
  exists path,
    In path ["root"; "root.a.b"] /\
    In "root" (segments path) /\
    (2 <= List.length (segments path))%nat.
Proof.
  apply (isNodeInPaths_some_segment ["root"; "root.a.b"]
           (mkNode (Some "root") None None None JS.VUndefined None None None None
                   None None None None)).
  reflexivity.
Defined.

(** ** Further properties of the tree walkers *)

Lemma isNodeInTree_keys (sp : option string) (nodeId : string) (tree : Tree) :
  isNodeInTree nodeId tree = existsb (String.eqb nodeId) (keysOf (preorder sp tree)).
Proof.
  unfold isNodeInTree. now rewrite (_isNodeInTree_walked nodeId tree sp).
Qed.

Lemma keysOf_app (es1 es2 : list (option string * string * Node)) :
  keysOf (es1 ++ es2) = (keysOf es1 ++ keysOf es2)%list.
Proof. apply map_app. Qed.

(** The walk with its flag, as a recursion on the tree. *)
Lemma isNodeInTree_unfold (nodeId : string) (tree : Tree) :
  isNodeInTree nodeId tree =
  existsb
    (fun kv =>
       String.eqb nodeId (fst kv) ||
       match children (snd kv) with
       | Some cs => isNodeInTree nodeId cs
       | None => false
       end)
    tree.
Proof.
  rewrite (isNodeInTree_keys None).
  induction tree as [|[k n] tree IH]; [reflexivity|].
  unfold preorder in *. cbn [flat_map existsb fst snd].
  rewrite keysOf_app, existsb_app, IH. f_equal.
  rewrite nodePreorder_eq. cbn [keysOf map existsb fst snd]. f_equal.
  destruct (children n) as [cs|]; [|reflexivity].
  symmetry. apply (isNodeInTree_keys (Some k)).
Qed.

(** X15: [isNodeInTree] is true exactly when the id is a key of the
    tree, or is in the tree that the [children] of one of its nodes
    make. *)
Theorem isNodeInTree_here_or_below (nodeId : string) (tree : Tree) :
  isNodeInTree nodeId tree = true <->
  exists k node,
    In (k, node) tree /\
    (nodeId = k \/
     exists cs, children node = Some cs /\ isNodeInTree nodeId cs = true).
Proof.
  rewrite isNodeInTree_unfold, existsb_exists. split.
  - intros ([k n] & Hin & H). exists k, n. split; [exact Hin|].
    simpl in H. apply orb_true_iff in H as [H | H].
    + left. now apply String.eqb_eq.
    + right. destruct (children n) as [cs|]; [eauto | discriminate].
  - intros (k & n & Hin & H). exists (k, n). split; [exact Hin|]. simpl.
    apply orb_true_iff. destruct H as [-> | (cs & -> & H)].
    + left. apply String.eqb_refl.
    + now right.
Qed.

Lemma getNodesFromTree_records (tree : Tree) :
  getNodesFromTree tree = map recordOf (preorder None tree).
Proof.
  unfold getNodesFromTree. now rewrite (_getNodesFromTree_records tree None []).
Qed.

(** X16: the records of [getNodesFromTree] have as ids the keys of the
    recursive tree in pre-order, the keys [isNodeInTree] walks, and none
    has [children]; so [isNodeInTree] is true of an id exactly when one
    of the records has it. *)
Theorem getNodesFromTree_ids (tree : Tree) :
  map id (getNodesFromTree tree) = map Some (treeKeys tree) /\
  (forall nodeId,
      map id (getNodesFromTree tree) = map Some (isNodeInTree_visits nodeId tree)) /\
  Forall (fun r => children r = None) (getNodesFromTree tree) /\
  forall nodeId,
    isNodeInTree nodeId tree = true <->
    exists r, In r (getNodesFromTree tree) /\ id r = Some nodeId.
Proof.
  assert (Hids : map id (getNodesFromTree tree) = map Some (treeKeys tree)).
  { rewrite getNodesFromTree_records. unfold treeKeys, keysOf.
    rewrite !map_map. apply map_ext. now intros [[sp k] n]. }
  split; [exact Hids|]. split; [|split].
  - intros nodeId. rewrite Hids. unfold isNodeInTree_visits.
    now rewrite (_isNodeInTree_walked nodeId tree None).
  - rewrite getNodesFromTree_records. apply Forall_forall.
    intros r Hr. apply in_map_iff in Hr as ([[sp k] n] & <- & _). reflexivity.
  - intros nodeId. rewrite (isNodeInTree_keys None). fold (treeKeys tree).
    rewrite existsb_exists. split.
    + intros (k & Hin & Hk). apply String.eqb_eq in Hk. subst k.
      apply (in_map Some) in Hin. rewrite <- Hids in Hin.
      apply in_map_iff in Hin as (r & Hr & Hin). eauto.
    + intros (r & Hin & Hr). exists nodeId. split; [|apply String.eqb_refl].
      apply (in_map id) in Hin. rewrite Hids, Hr in Hin.
      apply in_map_iff in Hin as (k & [= ->] & Hk). exact Hk.
Qed.

(** Below a node, every node of the walk has a structural parent. *)
Lemma nodePreorder_parent (node : Node) :
  forall sp k e,
    In e (nodePreorder sp k node) ->
    e = (sp, k, node) \/ exists k', fst (fst e) = Some k'.
Proof.
  induction node as [node IH] using Node_children_ind. intros sp k e.
  rewrite nodePreorder_eq. intros [<- | Hin]; [now left|]. right.
  destruct (children node) as [cs|] eqn:Hcs; [|destruct Hin].
  specialize (IH cs eq_refl). unfold preorder in Hin.
  apply in_flat_map in Hin as ([k' c] & Hc & He).
  rewrite Forall_forall in IH.
  destruct (IH (k', c) Hc (Some k) k' e He) as [-> | H]; [simpl; eauto | exact H].
Qed.

(** X17: a record of [getNodesFromTree] whose [parent] is [undefined]
    is the record of a node at the root of the tree, one without a
    [parent] of its own (or with the empty string as [parent]). *)
Theorem getNodesFromTree_orphans_at_root (tree : Tree) (r : Node) :
  In r (getNodesFromTree tree) ->
  parent r = None ->
  exists k node,
    In (k, node) tree /\
    JS.truthy_string (parent node) = false /\
    r = flatRecord k node None.
Proof.
  rewrite getNodesFromTree_records. intros Hin Hp.
  apply in_map_iff in Hin as ([[sp k] n] & <- & Hin).
  simpl in Hp. unfold JS.or_string in Hp.
  unfold preorder in Hin. apply in_flat_map in Hin as ([k0 n0] & Hin0 & He).
  destruct (JS.truthy_string (parent n)) eqn:Ht.
  - rewrite Hp in Ht. discriminate.
  - subst sp. destruct (nodePreorder_parent n0 None k0 _ He) as [[= -> ->] | [k' H]].
    + exists k0, n0. repeat split; [exact Hin0 | exact Ht |].
      simpl. unfold JS.or_string. now rewrite Ht.
    + discriminate H.
Qed.

Lemma getNodesFromTree_orphans_at_root_witness :
  exists k node,
    In (k, node) treeIndexed /\
    JS.truthy_string (parent node) = false /\
    mkNode (Some "a") None (Some 0) None JS.VUndefined None None None None None
           None None None = flatRecord k node None.
Proof.
  apply (getNodesFromTree_orphans_at_root treeIndexed
           (mkNode (Some "a") None (Some 0) None JS.VUndefined None None None None
                   None None None None)).
  - simpl. auto.
  - reflexivity.
Defined.
